(** * Data-access core of express-jobly: SQL fragment builders and row aggregation

    A shallow embedding of [helpers/sql.js] ([sqlForPartialUpdate]) and of the
    [findAll] / [update] methods of the [Company], [Job] and [User] models,
    followed by the properties established about them. *)

From Stdlib Require Import ZArith Ascii String Lia.
From stdpp Require Import base list strings pretty gmap.

Local Open Scope string_scope.
Local Open Scope list_scope.

(** ** JavaScript values, ordered objects and string helpers *)

Module Js.

(** The values this code handles: the primitive ones of a JSON request body,
    the column values of a returned row (SQL NULL comes back as [null]), and
    [undefined] for a missing property or array element.  Numbers are the
    integer-valued ones (salaries, employee counts, ids), below [10^21] in
    magnitude, the range that ToString prints in plain decimal: no arithmetic
    is ever performed on them by this code.  [VBuiltin] is an object or a
    function built into the language, such as the members an object literal
    inherits; all this code ever does with one is test it and print it, so it
    is known by the text ToString gives it. *)
Inductive value : Type :=
| VUndefined
| VNull
| VBool (b : bool)
| VNum (n : Z)
| VStr (s : string)
| VBuiltin (text : string).

#[global] Instance value_eq_dec : EqDecision value.
Proof. solve_decision. Defined.

(** A plain object: its own enumerable properties in enumeration order, the
    order shared by [Object.keys] and [Object.values].  It is the order of
    insertion, but for integer-like names, which come first; no field or
    filter name of the models is one. *)
Abbreviation obj := (list (string * value)).

Definition Object_keys (o : obj) : list string := o.*1.
Definition Object_values (o : obj) : list value := o.*2.

(** ToBoolean. *)
Definition truthy (v : value) : bool :=
  match v with
  | VUndefined => false
  | VNull => false
  | VBool b => b
  | VNum n => negb (n =? 0)%Z
  | VStr s => negb (String.eqb s EmptyString)
  | VBuiltin _ => true
  end.

(** ToString, as a template literal applies it. *)
Definition to_string (v : value) : string :=
  match v with
  | VUndefined => "undefined"
  | VNull => "null"
  | VBool true => "true"
  | VBool false => "false"
  | VNum n => pretty n
  | VStr s => s
  | VBuiltin text => text
  end.

(** [a || b]. *)
Definition or_else (a b : value) : value := if truthy a then a else b.

(** [a === b] on primitive values. *)
Definition strict_eq (a b : value) : bool := bool_decide (a = b).

(** A read [arr[i]] of an array: [undefined] out of range. *)
Definition at_index (arr : list value) (i : nat) : value := default VUndefined (arr !! i).

(** A read [o.key] of an own property of an ordered object: [undefined]
    when absent.  The models and routes read their data objects at fixed
    names only ([handle], [username], [job_id], [nameLike], ...), none of
    which an object inherits. *)
Fixpoint get (o : obj) (key : string) : value :=
  match o with
  | [] => VUndefined
  | (k, v) :: rest => if String.eqb k key then v else get rest key
  end.

(** An assignment [o.key = v]: in place when the property exists, appended
    otherwise. *)
Fixpoint set (o : obj) (key : string) (v : value) : obj :=
  match o with
  | [] => [(key, v)]
  | (k, w) :: rest => if String.eqb k key then (k, v) :: rest else (k, w) :: set rest key v
  end.

(** [delete o.key]. *)
Definition delete_prop (o : obj) (key : string) : obj :=
  filter (fun kv => negb (String.eqb kv.1 key)) o.

(** [Array.prototype.join]. *)
Fixpoint join (sep : string) (l : list string) : string :=
  match l with
  | [] => EmptyString
  | x :: rest =>
      match rest with
      | [] => x
      | _ :: _ => x +:+ sep +:+ join sep rest
      end
  end.

(** [Array.prototype.indexOf] on strings; [None] stands for -1. *)
Fixpoint indexOf (l : list string) (key : string) : option nat :=
  match l with
  | [] => None
  | x :: rest => if String.eqb x key then Some 0 else S <$> indexOf rest key
  end.

(** [Array.prototype.includes] on strings. *)
Definition includes (l : list string) (key : string) : bool :=
  existsb (String.eqb key) l.

(** [Array.prototype.entries]: the pairs [(idx, element)]. *)
Definition entries {A} (l : list A) : list (nat * A) := imap pair l.

(** The double-quote character as a one-character string. *)
Definition dq : string := String "034"%char EmptyString.

(** A line break inside a template literal. *)
Definition nl : string := String "010"%char EmptyString.

(** A function built into the language, as Node prints it. *)
Definition native_function (name : string) : value :=
  VBuiltin ("function " +:+ name +:+ "() { [native code] }").

(** [Object.prototype]: the members every object literal inherits.  All but
    [__proto__] are functions; reading [__proto__] gives [Object.prototype]
    itself, an object that prints as [[object Object]]. *)
Definition Object_prototype : obj :=
  [("constructor", native_function "Object");
   ("__defineGetter__", native_function "__defineGetter__");
   ("__defineSetter__", native_function "__defineSetter__");
   ("hasOwnProperty", native_function "hasOwnProperty");
   ("__lookupGetter__", native_function "__lookupGetter__");
   ("__lookupSetter__", native_function "__lookupSetter__");
   ("isPrototypeOf", native_function "isPrototypeOf");
   ("propertyIsEnumerable", native_function "propertyIsEnumerable");
   ("toString", native_function "toString");
   ("valueOf", native_function "valueOf");
   ("__proto__", VBuiltin "[object Object]");
   ("toLocaleString", native_function "toLocaleString")].

(** A read [o[key]] at a name the caller chooses, on an object literal given
    by its own properties: an own property first, then the prototype's. *)
Definition get_property (o : gmap string value) (key : string) : value :=
  match o !! key with
  | Some v => v
  | None => get Object_prototype key
  end.

End Js.

Import Js.

(** ** Errors of [expressError.js] that the models throw

    [CollaboratorError] stands for whatever an external library (here the
    password hashing) rejects with. *)

Inductive error : Type :=
| BadRequestError (msg : string)
| NotFoundError (msg : string)
| CollaboratorError (msg : string).

Inductive result (A : Type) : Type :=
| Ok (a : A)
| Throw (e : error).
Arguments Ok {A} a.
Arguments Throw {A} e.

(** ** helpers/sql.js *)

Module Sql.

Record partial_update : Type := mk_partial_update {
  setCols : string;
  values : list value
}.

(** The callback of [keys.map]: one quoted column assignment.  The
    translation table is an object literal at every call, given here by its
    own properties; [jsToSql[colName]] also finds what the literal
    inherits. *)
Definition col_assignment (jsToSql : gmap string value) (idx : nat) (colName : string) : string :=
  dq +:+ to_string (or_else (get_property jsToSql colName) (VStr colName)) +:+ dq +:+ "=$" +:+ pretty (idx + 1).

Definition cols (dataToUpdate : obj) (jsToSql : gmap string value) : list string :=
  imap (col_assignment jsToSql) (Object_keys dataToUpdate).

Definition sqlForPartialUpdate (dataToUpdate : obj) (jsToSql : gmap string value)
  : result partial_update :=
  let keys := Object_keys dataToUpdate in
  if (length keys =? 0)%nat then Throw (BadRequestError "No data")
  else Ok {| setCols := join ", " (cols dataToUpdate jsToSql);
             values := Object_values dataToUpdate |}.

End Sql.

(** ** The storage collaborator *)

(** A parameterized statement as handed to [db.query]; the second argument is
    absent ([None]) when the caller passes [undefined]. *)
Record statement : Type := mk_statement {
  sql : string;
  args : option (list value)
}.

(** [db.query]: the ordered rows the engine answers with. *)
Definition database : Type := string -> option (list value) -> list obj.

(** The request body handed to [findAll]: the two shapes the route lets
    through, [{}] and [{ filters: {...} }]. *)
Inductive filtersObj : Type :=
| NoFilters
| Filters (filters : obj).

(** [Object.keys(filtersObj).length > 0 && Object.keys(filtersObj.filters).length > 0],
    giving the [filters] object when the test passes. *)
Definition has_filters (f : filtersObj) : option obj :=
  match f with
  | NoFilters => None
  | Filters filters => if (0 <? length (Object_keys filters))%nat then Some filters else None
  end.

(** ** models/company.js *)

Module Company.

(** Body of the [for ... of filterKeys.entries()] loop. *)
Definition where_step (sqlWhereCondArr : list string) (e : nat * string) : list string :=
  let '(idx, key) := e in
  let arr1 := if String.eqb key "nameLike"
              then sqlWhereCondArr ++ ["name ILIKE $" +:+ pretty (idx + 1)] else sqlWhereCondArr in
  let arr2 := if String.eqb key "minEmployees"
              then arr1 ++ ["num_employees>=$" +:+ pretty (idx + 1)] else arr1 in
  let arr3 := if String.eqb key "maxEmployees"
              then arr2 ++ ["num_employees<=$" +:+ pretty (idx + 1)] else arr2 in
  arr3.

Definition sqlWhereCondArr (filterKeys : list string) : list string :=
  fold_left where_step (entries filterKeys) [].

(** The array after the first [n] iterations of the loop. *)
Definition loop_prefix (n : nat) (filterKeys : list string) : list string :=
  fold_left where_step (take n (entries filterKeys)) [].

(** The variables [findAll] has set when it reaches the query template. *)
Record locals : Type := mk_locals {
  sqlWhereCondStr : string;
  sqlNumEmployeesSelectArg : string;
  filterVals : option (list value)
}.

Definition build (f : filtersObj) : locals :=
  match has_filters f with
  | Some filters =>
      let filterKeys := Object_keys filters in
      {| sqlWhereCondStr := "WHERE " +:+ join " AND " (sqlWhereCondArr filterKeys);
         sqlNumEmployeesSelectArg :=
           if includes filterKeys "minEmployees" || includes filterKeys "maxEmployees"
           then "num_employees AS " +:+ dq +:+ "numEmployees" +:+ dq +:+ ","
           else EmptyString;
         filterVals := Some (Object_values filters) |}
  | None =>
      {| sqlWhereCondStr := EmptyString;
         sqlNumEmployeesSelectArg := EmptyString;
         filterVals := None |}
  end.

Definition select_from (numEmployeesSelectArg : string) : string :=
  nl +:+ "      SELECT handle," +:+ nl +:+ "        name," +:+ nl +:+ "        description," +:+ nl
  +:+ "        " +:+ numEmployeesSelectArg +:+ nl
  +:+ "        logo_url AS " +:+ dq +:+ "logoUrl" +:+ dq +:+ nl
  +:+ "    FROM companies" +:+ nl +:+ "    ".

Definition order_by : string := nl +:+ "    ORDER BY name".

Definition query (l : locals) : string :=
  select_from (sqlNumEmployeesSelectArg l) +:+ sqlWhereCondStr l +:+ order_by.

Definition findAll_statement (f : filtersObj) : statement :=
  let l := build f in {| sql := query l; args := filterVals l |}.

Definition findAll (db : database) (f : filtersObj) : list obj :=
  let s := findAll_statement f in db (sql s) (args s).

Definition jsToSql : gmap string value :=
  list_to_map [("numEmployees", VStr "num_employees"); ("logoUrl", VStr "logo_url")].

Definition querySql (setCols handleVarIdx : string) : string :=
  "UPDATE companies " +:+ nl
  +:+ "                      SET " +:+ setCols +:+ " " +:+ nl
  +:+ "                      WHERE handle = " +:+ handleVarIdx +:+ " " +:+ nl
  +:+ "                      RETURNING handle, " +:+ nl
  +:+ "                                name, " +:+ nl
  +:+ "                                description, " +:+ nl
  +:+ "                                num_employees AS " +:+ dq +:+ "numEmployees" +:+ dq +:+ ", " +:+ nl
  +:+ "                                logo_url AS " +:+ dq +:+ "logoUrl" +:+ dq.

Definition update_statement (handle : value) (p : Sql.partial_update) : statement :=
  let handleVarIdx := "$" +:+ pretty (length (Sql.values p) + 1) in
  {| sql := querySql (Sql.setCols p) handleVarIdx;
     args := Some (Sql.values p ++ [handle]) |}.

Definition update (db : database) (handle : value) (data : obj) : result obj :=
  match Sql.sqlForPartialUpdate data jsToSql with
  | Throw e => Throw e
  | Ok p =>
      let s := update_statement handle p in
      match db (sql s) (args s) !! 0%nat with
      | None => Throw (NotFoundError ("No company: " +:+ to_string handle))
      | Some company => Ok company
      end
  end.

End Company.

(** ** models/job.js *)

Module Job.

(** The two arrays the filter loop pushes to. *)
Record loop_state : Type := mk_loop_state {
  sqlWhereCondArr : list string;
  values : list value
}.

(** Body of the [for ... of filterKeys.entries()] loop. *)
Definition where_step (filterKeys : list string) (filterVals : list value)
    (st : loop_state) (e : nat * string) : loop_state :=
  let '(idx, key) := e in
  let val :=
    match indexOf filterKeys key with
    | Some valIdx => at_index filterVals valIdx
    | None => VUndefined
    end in
  let st1 :=
    if String.eqb key "titleLike"
    then {| sqlWhereCondArr := sqlWhereCondArr st ++ ["title ILIKE $" +:+ pretty (idx + 1)];
            values := values st ++ [val] |}
    else st in
  let st2 :=
    if String.eqb key "minSalary"
    then {| sqlWhereCondArr := sqlWhereCondArr st1 ++ ["salary>=$" +:+ pretty (idx + 1)];
            values := values st1 ++ [val] |}
    else st1 in
  let st3 :=
    if String.eqb key "hasEquity"
    then (if truthy val
          then {| sqlWhereCondArr := sqlWhereCondArr st2 ++ ["equity>'0'"];
                  values := values st2 |}
          else st2)
    else st2 in
  st3.

Definition where_loop (filterKeys : list string) (filterVals : list value) : loop_state :=
  fold_left (where_step filterKeys filterVals) (entries filterKeys)
    {| sqlWhereCondArr := []; values := [] |}.

(** The two arrays after the first [n] iterations of the loop. *)
Definition loop_prefix (n : nat) (filterKeys : list string) (filterVals : list value) : loop_state :=
  fold_left (where_step filterKeys filterVals) (take n (entries filterKeys))
    {| sqlWhereCondArr := []; values := [] |}.

(** The variables [findAll] has set when it reaches the query template. *)
Record locals : Type := mk_locals {
  sqlWhereCondStr : string;
  query_values : list value
}.

Definition build (f : filtersObj) : locals :=
  match has_filters f with
  | Some filters =>
      let st := where_loop (Object_keys filters) (Object_values filters) in
      {| sqlWhereCondStr := "WHERE " +:+ join " AND " (sqlWhereCondArr st);
         query_values := values st |}
  | None => {| sqlWhereCondStr := EmptyString; query_values := [] |}
  end.

Definition select_from : string :=
  nl +:+ "      SELECT id, title, salary, equity, company_handle" +:+ nl
  +:+ "      FROM jobs" +:+ nl +:+ "      ".

Definition order_by : string := nl +:+ "      ORDER BY id".

Definition query (l : locals) : string :=
  select_from +:+ sqlWhereCondStr l +:+ order_by.

Definition findAll_statement (f : filtersObj) : statement :=
  let l := build f in {| sql := query l; args := Some (query_values l) |}.

Definition findAll (db : database) (f : filtersObj) : list obj :=
  let s := findAll_statement f in db (sql s) (args s).

Definition jsToSql : gmap string value :=
  list_to_map [("title", VStr "title"); ("salary", VStr "salary"); ("equity", VStr "equity")].

Definition querySql (setCols idVarIdx : string) : string :=
  "UPDATE jobs " +:+ nl
  +:+ "                      SET " +:+ setCols +:+ " " +:+ nl
  +:+ "                      WHERE id = " +:+ idVarIdx +:+ " " +:+ nl
  +:+ "                      RETURNING id, title, salary, equity, company_handle".

Definition update_statement (id : value) (p : Sql.partial_update) : statement :=
  let idVarIdx := "$" +:+ pretty (length (Sql.values p) + 1) in
  {| sql := querySql (Sql.setCols p) idVarIdx;
     args := Some (Sql.values p ++ [id]) |}.

Definition update (db : database) (id : value) (data : obj) : result obj :=
  match Sql.sqlForPartialUpdate data jsToSql with
  | Throw e => Throw e
  | Ok p =>
      let s := update_statement id p in
      match db (sql s) (args s) !! 0%nat with
      | None => Throw (NotFoundError ("No job: " +:+ to_string id))
      | Some job => Ok job
      end
  end.

End Job.

(** ** Arrays held by reference *)

Module Heap.

(** Array objects live in a store and are named by their index in it, so that
    two names of one array see each other's mutations. *)
Abbreviation loc := nat.
Abbreviation heap := (list (list value)).

Definition read (h : heap) (l : loc) : list value := default [] (h !! l).
Definition write (h : heap) (l : loc) (arr : list value) : heap := <[l := arr]> h.

(** An array literal: a new array object. *)
Definition alloc (h : heap) (arr : list value) : loc * heap := (length h, h ++ [arr]).

(** [arr.push(v)]. *)
Definition push (h : heap) (l : loc) (v : value) : heap := write h l (read h l ++ [v]).

(** [arr.length = 0]. *)
Definition truncate (h : heap) (l : loc) : heap := write h l [].

End Heap.

(** ** models/user.js *)

Module User.
Import Heap.

Definition findAll_sql : string :=
  "SELECT" +:+ nl
  +:+ "                    users.username," +:+ nl
  +:+ "                    first_name AS " +:+ dq +:+ "firstName" +:+ dq +:+ "," +:+ nl
  +:+ "                    last_name AS " +:+ dq +:+ "lastName" +:+ dq +:+ "," +:+ nl
  +:+ "                    email," +:+ nl
  +:+ "                    is_admin AS " +:+ dq +:+ "isAdmin" +:+ dq +:+ "," +:+ nl
  +:+ "                    job_id" +:+ nl
  +:+ "            FROM users" +:+ nl
  +:+ "            LEFT JOIN applications" +:+ nl
  +:+ "            ON users.username = applications.username" +:+ nl
  +:+ "           ORDER BY users.username".

(** [finalUserObj]: the parent columns and a reference to its [jobs] array. *)
Record user_object : Type := mk_user_object {
  username : value;
  firstName : value;
  lastName : value;
  email : value;
  isAdmin : value;
  jobs : loc
}.

(** What the [forEach] callback mutates: the store holding the [jobs]
    accumulator and the spread copies, and the [allUsers] array. *)
Record agg_state : Type := mk_agg_state {
  store : heap;
  allUsers : list user_object
}.

(** [const jobs = []] is the first array allocated. *)
Definition jobs_acc : loc := 0%nat.

Definition init_state : agg_state := {| store := (alloc [] []).2; allUsers := [] |}.

(** The callback of [resultRows.forEach]. *)
Definition forEach_step (rows : list obj) (st : agg_state) (e : nat * obj) : agg_state :=
  let '(i, currObj) := e in
  let h1 := push (store st) jobs_acc (get currObj "job_id") in
  let flush :=
    match rows !! (i + 1)%nat with
    | None => true
    | Some next => negb (strict_eq (get currObj "username") (get next "username"))
    end in
  if flush then
    let '(copy, h2) := alloc h1 (read h1 jobs_acc) in
    let finalUserObj :=
      {| username := get currObj "username";
         firstName := get currObj "firstName";
         lastName := get currObj "lastName";
         email := get currObj "email";
         isAdmin := get currObj "isAdmin";
         jobs := copy |} in
    {| store := truncate h2 jobs_acc; allUsers := allUsers st ++ [finalUserObj] |}
  else {| store := h1; allUsers := allUsers st |}.

(** The grouping loop of [findAll] over the rows the query returned. *)
Definition aggregate (rows : list obj) : agg_state :=
  fold_left (forEach_step rows) (entries rows) init_state.

Definition findAll (db : database) : agg_state := aggregate (db findAll_sql None).

(** The [jobs] array of an emitted user as the store holds it. *)
Definition jobs_of (st : agg_state) (u : user_object) : list value := read (store st) (jobs u).

(** A user as the caller of [findAll] reads it: the columns and the contents
    of its [jobs] array. *)
Record user_with_jobs : Type := mk_user_with_jobs {
  uj_username : value;
  uj_firstName : value;
  uj_lastName : value;
  uj_email : value;
  uj_isAdmin : value;
  uj_jobs : list value
}.

Definition returned_user (st : agg_state) (u : user_object) : user_with_jobs :=
  {| uj_username := username u;
     uj_firstName := firstName u;
     uj_lastName := lastName u;
     uj_email := email u;
     uj_isAdmin := isAdmin u;
     uj_jobs := jobs_of st u |}.

Definition returned_users (st : agg_state) : list user_with_jobs :=
  returned_user st <$> allUsers st.

(** A later mutation of the array at [l], seen from the aggregation's result. *)
Definition mutate (st : agg_state) (l : loc) (arr : list value) : agg_state :=
  {| store := write (store st) l arr; allUsers := allUsers st |}.

Definition jsToSql : gmap string value :=
  list_to_map [("firstName", VStr "first_name"); ("lastName", VStr "last_name");
               ("isAdmin", VStr "is_admin")].

Definition querySql (setCols usernameVarIdx : string) : string :=
  "UPDATE users " +:+ nl
  +:+ "                      SET " +:+ setCols +:+ " " +:+ nl
  +:+ "                      WHERE username = " +:+ usernameVarIdx +:+ " " +:+ nl
  +:+ "                      RETURNING username," +:+ nl
  +:+ "                                first_name AS " +:+ dq +:+ "firstName" +:+ dq +:+ "," +:+ nl
  +:+ "                                last_name AS " +:+ dq +:+ "lastName" +:+ dq +:+ "," +:+ nl
  +:+ "                                email," +:+ nl
  +:+ "                                is_admin AS " +:+ dq +:+ "isAdmin" +:+ dq.

Definition update_statement (username : value) (p : Sql.partial_update) : statement :=
  let usernameVarIdx := "$" +:+ pretty (length (Sql.values p) + 1) in
  {| sql := querySql (Sql.setCols p) usernameVarIdx;
     args := Some (Sql.values p ++ [username]) |}.

(** [if (data.password) data.password = await bcrypt.hash(...)]; the hashing
    library is a collaborator and may reject its input. *)
Definition hash_password (bcrypt_hash : value -> result value) (data : obj) : result obj :=
  if truthy (get data "password") then
    match bcrypt_hash (get data "password") with
    | Ok hashed => Ok (set data "password" hashed)
    | Throw e => Throw e
    end
  else Ok data.

Definition update (bcrypt_hash : value -> result value) (db : database)
    (username : value) (data : obj) : result obj :=
  match hash_password bcrypt_hash data with
  | Throw e => Throw e
  | Ok data' =>
      match Sql.sqlForPartialUpdate data' jsToSql with
      | Throw e => Throw e
      | Ok p =>
          let s := update_statement username p in
          match db (sql s) (args s) !! 0%nat with
          | None => Throw (NotFoundError ("No user: " +:+ to_string username))
          | Some user => Ok (delete_prop user "password")
          end
      end
  end.

End User.

(** ** Positional placeholders of a SQL text

    How the storage engine reads the placeholders of a statement, as far as
    the generated texts need it: a dollar sign followed by decimal digits,
    outside quoted identifiers and string literals. *)

Module Placeholder.

Definition is_digit (c : ascii) : bool :=
  (48 <=? nat_of_ascii c)%nat && (nat_of_ascii c <=? 57)%nat.

Definition digit_value (c : ascii) : nat := (nat_of_ascii c - 48)%nat.

(** Where the scanner stands: in plain text, inside a quoted identifier or a
    string literal (closed by the same quote), just after a dollar sign, or
    inside the digits of a placeholder. *)
Inductive scan_state : Type :=
| Plain
| Quoted (q : ascii)
| Dollar
| Digits (n : nat).

Definition after (c : ascii) : scan_state :=
  if Ascii.eqb c "039"%char then Quoted c
  else if Ascii.eqb c "034"%char then Quoted c
  else if Ascii.eqb c "036"%char then Dollar
  else Plain.

Fixpoint scan (st : scan_state) (s : string) : list nat :=
  match s with
  | EmptyString => match st with Digits n => [n] | _ => [] end
  | String c rest =>
      match st with
      | Quoted q => if Ascii.eqb c q then scan Plain rest else scan (Quoted q) rest
      | Digits n =>
          if is_digit c then scan (Digits (10 * n + digit_value c)) rest
          else n :: scan (after c) rest
      | Dollar =>
          if is_digit c then scan (Digits (digit_value c)) rest
          else scan (after c) rest
      | Plain => scan (after c) rest
      end
  end.

(** The numbers of the placeholders [$n] of a SQL text, in order of
    occurrence. *)
Definition placeholders (s : string) : list nat := scan Plain s.

(** Placeholder [$i] is bound to [params[i-1]]: every placeholder of the text
    has a parameter, and every parameter a placeholder. *)
Definition aligned (s : string) (params : list value) : Prop :=
  placeholders s = seq 1 (length params).

(** Text that holds no quote and no dollar sign: the scanner passes over it. *)
Definition inert_char (c : ascii) : bool :=
  negb (Ascii.eqb c "039"%char || Ascii.eqb c "034"%char || Ascii.eqb c "036"%char).

Fixpoint inert (s : string) : bool :=
  match s with
  | EmptyString => true
  | String c rest => inert_char c && inert rest
  end.

(** A name that can stand between double quotes. *)
Fixpoint no_dquote (s : string) : bool :=
  match s with
  | EmptyString => true
  | String c rest => negb (Ascii.eqb c "034"%char) && no_dquote rest
  end.

(** A text that ends a number read before it: the empty text, or one that
    starts with an inert character other than a digit. *)
Definition ends_number (s : string) : bool :=
  match s with
  | EmptyString => true
  | String c _ => inert_char c && negb (is_digit c)
  end.

End Placeholder.

(** ** Notions of the specification *)

Module Spec.

Implicit Types (jsToSql : gmap string value).

(** The column the builder writes for an external name: the table's own
    translation when it has a truthy one; without an own entry, the text of
    the member of that name every object inherits, if there is one; the name
    itself otherwise. *)
Definition resolved_column jsToSql (name : string) : string :=
  match jsToSql !! name with
  | Some col => if truthy col then to_string col else name
  | None =>
      if bool_decide (name ∈ Object_keys Object_prototype)
      then to_string (get Object_prototype name)
      else name
  end.


(** The enumerated filter names of each entity. *)
Definition company_filters : list string := ["nameLike"; "minEmployees"; "maxEmployees"].
Definition job_filters : list string := ["titleLike"; "minSalary"; "hasEquity"].

(** The SQL shape of a parametric filter, up to its placeholder number. *)
Definition company_shape (key : string) : string :=
  if String.eqb key "nameLike" then "name ILIKE $"
  else if String.eqb key "minEmployees" then "num_employees>=$"
  else "num_employees<=$".

Definition job_shape (key : string) : string :=
  if String.eqb key "titleLike" then "title ILIKE $" else "salary>=$".

(** The filter spec a request body carries. *)
Definition filter_spec (f : filtersObj) : obj :=
  match f with
  | NoFilters => []
  | Filters filters => filters
  end.

(** What an update by key comes to, given the rows its statement returned:
    the first row, or the not-found error when no row came back. *)
Definition by_first_row (rows : list obj) (not_found : string) (post : obj -> obj) : result obj :=
  match rows with
  | [] => Throw (NotFoundError not_found)
  | row :: _ => Ok (post row)
  end.

(** The text of an update by key: UPDATE of the table, SET of the fragment,
    WHERE on the key column under the given placeholder, RETURNING of the
    listed columns; one clause per line. *)
Definition update_by_key_text (table key_column returning setCols placeholder : string)
  : string :=
  "UPDATE " +:+ table +:+ " " +:+ nl
  +:+ "                      SET " +:+ setCols +:+ " " +:+ nl
  +:+ "                      WHERE " +:+ key_column +:+ " = " +:+ placeholder +:+ " " +:+ nl
  +:+ "                      RETURNING " +:+ returning.

(** The columns each update returns of the affected row. *)
Definition company_returning : string :=
  join (", " +:+ nl +:+ "                                ")
    ["handle"; "name"; "description";
     "num_employees AS " +:+ dq +:+ "numEmployees" +:+ dq;
     "logo_url AS " +:+ dq +:+ "logoUrl" +:+ dq].

Definition job_returning : string := "id, title, salary, equity, company_handle".

Definition user_returning : string :=
  join ("," +:+ nl +:+ "                                ")
    ["username";
     "first_name AS " +:+ dq +:+ "firstName" +:+ dq;
     "last_name AS " +:+ dq +:+ "lastName" +:+ dq;
     "email";
     "is_admin AS " +:+ dq +:+ "isAdmin" +:+ dq].

(** The statement is the update by key of the table, with the SET fragment
    of [p]; the key travels as the last parameter, under the placeholder
    numbered one past the SET parameters. *)
Definition key_in_final_placeholder (table key_column returning : string)
    (s : statement) (p : Sql.partial_update) (key : value) : Prop :=
  sql s = update_by_key_text table key_column returning (Sql.setCols p)
            ("$" +:+ pretty (length (Sql.values p) + 1))
  /\ args s = Some (Sql.values p ++ [key])
  /\ (Sql.values p ++ [key]) !! length (Sql.values p) = Some key
  /\ length (Sql.values p ++ [key]) = length (Sql.values p) + 1.

(** The SELECT/FROM projection of each list query, up to the place of the
    filter fragment.  The companies projection holds the employee-count
    column when [employee_count] is set. *)
Definition company_projection (employee_count : bool) : string :=
  nl +:+ "      SELECT handle," +:+ nl
  +:+ "        name," +:+ nl
  +:+ "        description," +:+ nl
  +:+ "        "
  +:+ (if employee_count
       then "num_employees AS " +:+ dq +:+ "numEmployees" +:+ dq +:+ ","
       else EmptyString) +:+ nl
  +:+ "        logo_url AS " +:+ dq +:+ "logoUrl" +:+ dq +:+ nl
  +:+ "    FROM companies" +:+ nl
  +:+ "    ".

Definition job_projection : string :=
  nl +:+ "      SELECT id, title, salary, equity, company_handle" +:+ nl
  +:+ "      FROM jobs" +:+ nl
  +:+ "      ".

Definition user_projection : string :=
  "SELECT" +:+ nl
  +:+ "                    users.username," +:+ nl
  +:+ "                    first_name AS " +:+ dq +:+ "firstName" +:+ dq +:+ "," +:+ nl
  +:+ "                    last_name AS " +:+ dq +:+ "lastName" +:+ dq +:+ "," +:+ nl
  +:+ "                    email," +:+ nl
  +:+ "                    is_admin AS " +:+ dq +:+ "isAdmin" +:+ dq +:+ "," +:+ nl
  +:+ "                    job_id" +:+ nl
  +:+ "            FROM users" +:+ nl
  +:+ "            LEFT JOIN applications" +:+ nl
  +:+ "            ON users.username = applications.username" +:+ nl
  +:+ "           ".

(** The comma-separated items of each parenthesised list of a text, in
    order, blanks dropped. *)
Fixpoint paren_lists_from (inside : bool) (item : string) (items : list string) (s : string)
  : list (list string) :=
  match s with
  | EmptyString => []
  | String c rest =>
      if inside then
        if Ascii.eqb c ")"%char then (items ++ [item]) :: paren_lists_from false EmptyString [] rest
        else if Ascii.eqb c ","%char then paren_lists_from true EmptyString (items ++ [item]) rest
        else if Ascii.eqb c " "%char then paren_lists_from true item items rest
        else paren_lists_from true (item +:+ String c EmptyString) items rest
      else if Ascii.eqb c "("%char then paren_lists_from true EmptyString [] rest
      else paren_lists_from false EmptyString [] rest
  end.

Definition paren_lists (s : string) : list (list string) :=
  paren_lists_from false EmptyString [] s.

(** What an INSERT binds to each column: its text lists the columns, then
    one placeholder per column; the column goes with the parameter of the
    placeholder at the same place. *)
Definition bound_columns (s : statement) : list (string * value) :=
  match paren_lists (sql s) with
  | [columns; holders] =>
      zip columns
        ((fun holder =>
            match Placeholder.placeholders holder with
            | [n] => at_index (default [] (args s)) (n - 1)
            | _ => VUndefined
            end) <$> holders)
  | _ => []
  end.

(** The grouping the aggregator is specified to compute: every maximal run of
    consecutive rows with one username gives one group, made of the last row
    of the run (the parent columns are read from it) and the child values of
    the run's rows, in order. *)
Fixpoint group_rows (rows : list obj) : list (obj * list value) :=
  match rows with
  | [] => []
  | r :: rest =>
      match group_rows rest with
      | [] => [(r, [get r "job_id"])]
      | (parent, children) :: groups =>
          match rest with
          | [] => [(r, [get r "job_id"])]
          | next :: _ =>
              if strict_eq (get r "username") (get next "username")
              then (parent, get r "job_id" :: children) :: groups
              else (r, [get r "job_id"]) :: (parent, children) :: groups
          end
      end
  end.

Definition user_of_group (g : obj * list value) : User.user_with_jobs :=
  {| User.uj_username := get g.1 "username";
     User.uj_firstName := get g.1 "firstName";
     User.uj_lastName := get g.1 "lastName";
     User.uj_email := get g.1 "email";
     User.uj_isAdmin := get g.1 "isAdmin";
     User.uj_jobs := g.2 |}.

(** Rows grouped by parent key, as an ORDER BY on the key leaves them: the key
    of a row is the key of the next row, or the key of no later row. *)
Fixpoint grouped_by (key : string) (rows : list obj) : Prop :=
  match rows with
  | [] => True
  | r :: rest =>
      match rest with
      | [] => True
      | next :: _ =>
          get r key = get next key \/ Forall (fun later => get later key <> get r key) rest
      end
      /\ grouped_by key rest
  end.

(** The object [findAll] builds for a flushed row, its [jobs] array at [l]. *)
Definition object_of_row (r : obj) (l : Heap.loc) : User.user_object :=
  {| User.username := get r "username";
     User.firstName := get r "firstName";
     User.lastName := get r "lastName";
     User.email := get r "email";
     User.isAdmin := get r "isAdmin";
     User.jobs := l |}.

(** The children gathered before a run resumes go in front of its group. *)
Definition extend_first (acc : list value) (groups : list (obj * list value))
  : list (obj * list value) :=
  match groups with
  | [] => []
  | (parent, children) :: rest => (parent, acc ++ children) :: rest
  end.

(** The rows and users of the specification's example: only the parent key
    and the child column are given. *)
Definition flat_row (user : string) (job : value) : obj :=
  [("username", VStr user); ("job_id", job)].

Definition plain_user (user : string) (jobs : list value) : User.user_with_jobs :=
  {| User.uj_username := VStr user;
     User.uj_firstName := VUndefined;
     User.uj_lastName := VUndefined;
     User.uj_email := VUndefined;
     User.uj_isAdmin := VUndefined;
     User.uj_jobs := jobs |}.

End Spec.

Import Spec.

(** ** More of the models: statements issued one after the other *)

(** One call of [db.query]. *)
Definition query (db : database) (s : statement) : list obj := db (sql s) (args s).

(** ** models/company.js: [create] *)

Module CompanyCreate.

Definition duplicateCheck_statement (handle : value) : statement :=
  {| sql := "SELECT handle" +:+ nl
            +:+ "           FROM companies" +:+ nl
            +:+ "           WHERE handle = $1";
     args := Some [handle] |}.

Definition insert_statement (data : obj) : statement :=
  {| sql := "INSERT INTO companies" +:+ nl
            +:+ "           (handle, name, description, num_employees, logo_url)" +:+ nl
            +:+ "           VALUES ($1, $2, $3, $4, $5)" +:+ nl
            +:+ "           RETURNING handle, name, description, num_employees AS "
            +:+ dq +:+ "numEmployees" +:+ dq +:+ ", logo_url AS " +:+ dq +:+ "logoUrl" +:+ dq;
     args := Some [get data "handle"; get data "name"; get data "description";
                   get data "numEmployees"; get data "logoUrl"] |}.

(** The outcome of [create] and the statements it issued, in order.  The
    returned company is [result.rows[0]], absent when the engine returned no
    row. *)
Definition create (db : database) (data : obj) : result (option obj) * list statement :=
  let check := duplicateCheck_statement (get data "handle") in
  match query db check !! 0%nat with
  | Some _ =>
      (Throw (BadRequestError ("Duplicate company: " +:+ to_string (get data "handle"))), [check])
  | None =>
      let insert := insert_statement data in
      (Ok (query db insert !! 0%nat), [check; insert])
  end.

End CompanyCreate.

(** ** models/user.js: [authenticate], [get], [applyForJob] *)

Module UserOps.

Definition authenticate_statement (username : value) : statement :=
  {| sql := "SELECT username," +:+ nl
            +:+ "                  password," +:+ nl
            +:+ "                  first_name AS " +:+ dq +:+ "firstName" +:+ dq +:+ "," +:+ nl
            +:+ "                  last_name AS " +:+ dq +:+ "lastName" +:+ dq +:+ "," +:+ nl
            +:+ "                  email," +:+ nl
            +:+ "                  is_admin AS " +:+ dq +:+ "isAdmin" +:+ dq +:+ nl
            +:+ "           FROM users" +:+ nl
            +:+ "           WHERE username = $1";
     args := Some [username] |}.

(** How [authenticate] ends: with the user, with [UnauthorizedError], or with
    whatever the password library rejected with. *)
Inductive auth_outcome : Type :=
| Authenticated (user : obj)
| UnauthorizedError (msg : string)
| Rejected (e : error).

(** [bcrypt_compare] is the password library's [compare]: its answer, or the
    error it rejects with. *)
Definition authenticate (bcrypt_compare : value -> value -> result value) (db : database)
    (username password : value) : auth_outcome :=
  match query db (authenticate_statement username) !! 0%nat with
  | Some user =>
      match bcrypt_compare password (get user "password") with
      | Throw e => Rejected e
      | Ok isValid =>
          if strict_eq isValid (VBool true)
          then Authenticated (delete_prop user "password")
          else UnauthorizedError "Invalid username/password"
      end
  | None => UnauthorizedError "Invalid username/password"
  end.

Definition get_statement (username : value) : statement :=
  {| sql := "SELECT" +:+ nl
            +:+ "                  users.username," +:+ nl
            +:+ "                  first_name AS " +:+ dq +:+ "firstName" +:+ dq +:+ "," +:+ nl
            +:+ "                  last_name AS " +:+ dq +:+ "lastName" +:+ dq +:+ "," +:+ nl
            +:+ "                  email," +:+ nl
            +:+ "                  is_admin AS " +:+ dq +:+ "isAdmin" +:+ dq +:+ "," +:+ nl
            +:+ "                  job_id" +:+ nl
            +:+ "          FROM users" +:+ nl
            +:+ "          LEFT JOIN applications" +:+ nl
            +:+ "          ON users.username = applications.username" +:+ nl
            +:+ "          WHERE users.username = $1;";
     args := Some [username] |}.

(** [get]: the columns of the first row under the requested username, and
    the [job_id] of every row. *)
Definition get (db : database) (username : value) : result User.user_with_jobs :=
  let rows := query db (get_statement username) in
  match rows !! 0%nat with
  | None => Throw (NotFoundError ("No user: " +:+ to_string username))
  | Some user =>
      Ok {| User.uj_username := username;
            User.uj_firstName := Js.get user "firstName";
            User.uj_lastName := Js.get user "lastName";
            User.uj_email := Js.get user "email";
            User.uj_isAdmin := Js.get user "isAdmin";
            User.uj_jobs := (fun r => Js.get r "job_id") <$> rows |}
  end.

Definition userCheck_statement (username : value) : statement :=
  {| sql := "SELECT username" +:+ nl
            +:+ "       FROM users" +:+ nl
            +:+ "       WHERE username = $1";
     args := Some [username] |}.

Definition jobCheck_statement (jobId : value) : statement :=
  {| sql := "SELECT id" +:+ nl
            +:+ "       FROM jobs" +:+ nl
            +:+ "       WHERE id = $1";
     args := Some [jobId] |}.

Definition duplicateCheck_statement (username jobId : value) : statement :=
  {| sql := "SELECT username, job_id" +:+ nl
            +:+ "       FROM applications" +:+ nl
            +:+ "       WHERE username = $1 and job_id = $2";
     args := Some [username; jobId] |}.

Definition insert_statement (username jobId : value) : statement :=
  {| sql := "INSERT INTO applications (username, job_id)" +:+ nl
            +:+ "       VALUES ($1, $2)" +:+ nl
            +:+ "       RETURNING username, job_id" +:+ nl
            +:+ "      ";
     args := Some [username; jobId] |}.

(** The outcome of [applyForJob] and the statements it issued, in order. *)
Definition applyForJob (db : database) (username jobId : value) : result obj * list statement :=
  let userCheck := userCheck_statement username in
  match query db userCheck !! 0%nat with
  | None => (Throw (BadRequestError "User not found"), [userCheck])
  | Some _ =>
      let jobCheck := jobCheck_statement jobId in
      match query db jobCheck !! 0%nat with
      | None => (Throw (BadRequestError "Job not found"), [userCheck; jobCheck])
      | Some _ =>
          let duplicateCheck := duplicateCheck_statement username jobId in
          match query db duplicateCheck !! 0%nat with
          | Some _ =>
              (Throw (BadRequestError "Duplicate application found"),
               [userCheck; jobCheck; duplicateCheck])
          | None =>
              (Ok [("applied", jobId)],
               [userCheck; jobCheck; duplicateCheck; insert_statement username jobId])
          end
      end
  end.

End UserOps.

(** ** routes/companies.js and routes/jobs.js: [GET /] *)

Module Routes.

(** ToNumber on the operands the companies route compares; [None] is NaN.
    [undefined] (an absent filter) is NaN, [null] is 0, booleans are 0 and 1.
    The numeric reading of a string operand is not modelled (it is taken as
    NaN): the filter schema admits integers only for the compared fields, and
    the properties below are stated for such operands. *)
Definition to_number (v : value) : option Z :=
  match v with
  | VUndefined => None
  | VNull => Some 0%Z
  | VBool b => Some (if b then 1 else 0)%Z
  | VNum n => Some n
  | VStr _ => None
  | VBuiltin _ => None
  end.

(** [a >= b] and [a <= b]: false when an operand is NaN. *)
Definition ge (a b : value) : bool :=
  match to_number a, to_number b with
  | Some x, Some y => (y <=? x)%Z
  | _, _ => false
  end.

Definition le (a b : value) : bool :=
  match to_number a, to_number b with
  | Some x, Some y => (x <=? y)%Z
  | _, _ => false
  end.

(** [if (filters.key) filters.key = "%" + filters.key + "%"]. *)
Definition wrap_like (key : string) (filters : obj) : obj :=
  if truthy (get filters key)
  then set filters key (VStr ("%" +:+ to_string (get filters key) +:+ "%"))
  else filters.

(** What the companies route does to a body that passed the schema, before it
    calls [Company.findAll]. *)
Definition company_prepare (body : filtersObj) : result filtersObj :=
  match body with
  | NoFilters => Ok NoFilters
  | Filters filters =>
      if ge (get filters "minEmployees") (VNum 0) && ge (get filters "maxEmployees") (VNum 0)
         && le (get filters "maxEmployees") (get filters "minEmployees")
      then Throw (BadRequestError "Max employees must be greater than the min employees")
      else Ok (Filters (wrap_like "nameLike" filters))
  end.

(** [router.get("/")] of the companies routes.  [validate] is the JSON-schema
    check of the body: the error text when the body is refused. *)
Definition company_get (validate : filtersObj -> option string) (db : database)
    (body : filtersObj) : result (list obj) :=
  match validate body with
  | Some errs => Throw (BadRequestError errs)
  | None =>
      match company_prepare body with
      | Throw e => Throw e
      | Ok body' => Ok (Company.findAll db body')
      end
  end.

Definition job_prepare (body : filtersObj) : filtersObj :=
  match body with
  | NoFilters => NoFilters
  | Filters filters => Filters (wrap_like "titleLike" filters)
  end.

(** [router.get("/")] of the jobs routes. *)
Definition job_get (validate : filtersObj -> option string) (db : database)
    (body : filtersObj) : result (list obj) :=
  match validate body with
  | Some errs => Throw (BadRequestError errs)
  | None => Ok (Job.findAll db (job_prepare body))
  end.

(** The entry a route hands on for an entry of the body: the value under
    [key] between percent signs when it is truthy, any other entry as it
    is. *)
Definition wrapped_entry (key : string) (kv : string * value) : string * value :=
  if String.eqb kv.1 key && truthy kv.2
  then (kv.1, VStr ("%" +:+ to_string kv.2 +:+ "%"))
  else kv.

End Routes.

(** ** middleware/auth.js *)

Module Auth.

(** A middleware ends in [next()] or in [next(err)] with an
    [UnauthorizedError]. *)
Inductive outcome : Type :=
| Next
| NextUnauthorized.

(** [user] is [res.locals.user]: absent, or the payload of the verified
    token. *)
Definition ensureLoggedIn (user : option obj) : outcome :=
  match user with
  | None => NextUnauthorized
  | Some _ => Next
  end.

(** [!res.locals.user.isAdmin === true] compares the negation with [true]. *)
Definition ensureIsAdmin (user : option obj) : outcome :=
  match user with
  | None => NextUnauthorized
  | Some payload =>
      if strict_eq (VBool (negb (truthy (get payload "isAdmin")))) (VBool true)
      then NextUnauthorized
      else Next
  end.

(** [param] is [req.params.username]. *)
Definition ensureCorrectUser (user : option obj) (param : value) : outcome :=
  match user with
  | None => NextUnauthorized
  | Some payload =>
      if negb (strict_eq (get payload "username") param
               || strict_eq (get payload "isAdmin") (VBool true))
      then NextUnauthorized
      else Next
  end.

End Auth.

(** ** Notions for the filter fragments *)

Module Shape.

Import Placeholder.

(** A predicate of a WHERE fragment: a text ending in the placeholder of a
    number, or a text with no placeholder. *)
Inductive piece : Type :=
| Numbered (body : string) (n : nat)
| Literal (text : string).

Definition render (p : piece) : string :=
  match p with
  | Numbered body n => body +:+ pretty n
  | Literal text => text
  end.

Definition number_of (p : piece) : option nat :=
  match p with
  | Numbered _ n => Some n
  | Literal _ => None
  end.

(** What the scanner does on a piece standing in plain text. *)
Definition piece_ok (p : piece) : Prop :=
  match p with
  | Numbered body n =>
      (0 < n)%nat /\ forall t, scan Plain (body +:+ pretty n +:+ t) = scan (Digits n) t
  | Literal text => forall t, scan Plain (text +:+ t) = scan Plain t
  end.

(** The filters of the jobs model that carry a parameter. *)
Definition parametric (key : string) : bool :=
  String.eqb key "titleLike" || String.eqb key "minSalary".

(** The predicates and the parameters one entry of a jobs filter spec gives
    rise to, the entry standing at index [idx]. *)
Definition job_pieces (idx : nat) (kv : string * value) : list piece :=
  if String.eqb kv.1 "titleLike" then [Numbered "title ILIKE $" (idx + 1)]
  else if String.eqb kv.1 "minSalary" then [Numbered "salary>=$" (idx + 1)]
  else if String.eqb kv.1 "hasEquity" then (if truthy kv.2 then [Literal "equity>'0'"] else [])
  else [].

Definition job_params (kv : string * value) : list value :=
  if parametric kv.1 then [kv.2] else [].



(** Two filter specs with the same keys, entry by entry, and the same
    truthiness under [hasEquity]. *)
Definition same_shape (f1 f2 : obj) : Prop :=
  Forall2 (fun kv1 kv2 : string * value =>
             kv1.1 = kv2.1 /\ (kv1.1 = "hasEquity" -> truthy kv1.2 = truthy kv2.2)) f1 f2.

End Shape.

Import Shape.

(** * Properties *)

(** ** Own and inherited properties *)

Section OwnAndInherited.

Lemma string_eqb_ne (a b : string) : a <> b -> String.eqb a b = false.
Proof. intros Hne. by destruct (String.eqb_spec a b). Qed.

Lemma get_absent (o : obj) key : key ∉ Object_keys o -> get o key = VUndefined.
Proof.
  induction o as [|[k v] rest IH]; simpl; [done|]. intros Hnot.
  apply not_elem_of_cons in Hnot as [Hne Hrest].
  rewrite string_eqb_ne by done. by apply IH.
Qed.

(** Every inherited member is truthy, and prints without a double quote. *)
Lemma inherited_member name :
  name ∈ Object_keys Object_prototype ->
  truthy (get Object_prototype name) = true
  /\ Placeholder.no_dquote (to_string (get Object_prototype name)) = true.
Proof.
  intros Hin. unfold Object_keys, Object_prototype in Hin. cbn [fmap list_fmap fst] in Hin.
  repeat (apply elem_of_cons in Hin as [->|Hin]; [by split|]).
  by apply elem_of_nil in Hin.
Qed.

Lemma get_property_own (o : gmap string value) key v :
  o !! key = Some v -> get_property o key = v.
Proof. unfold get_property. by intros ->. Qed.

Lemma get_property_inherited (o : gmap string value) key :
  o !! key = None -> get_property o key = get Object_prototype key.
Proof. unfold get_property. by intros ->. Qed.

End OwnAndInherited.

(** ** The partial-update builder *)

Section PartialUpdate.

Implicit Types (dataToUpdate : obj) (jsToSql : gmap string value).

Lemma col_assignment_resolved jsToSql idx name :
  Sql.col_assignment jsToSql idx name
  = dq +:+ resolved_column jsToSql name +:+ dq +:+ "=$" +:+ pretty (idx + 1).
Proof.
  unfold Sql.col_assignment, resolved_column, or_else.
  destruct (jsToSql !! name) as [col|] eqn:Hcol.
  - rewrite (get_property_own _ _ _ Hcol). by destruct (truthy col).
  - rewrite (get_property_inherited _ _ Hcol). case_bool_decide as Hin.
    + by rewrite (proj1 (inherited_member name Hin)).
    + by rewrite (get_absent _ _ Hin).
Qed.


Lemma sqlForPartialUpdate_nonempty dataToUpdate jsToSql :
  dataToUpdate <> [] ->
  Sql.sqlForPartialUpdate dataToUpdate jsToSql
  = Ok {| Sql.setCols := join ", " (Sql.cols dataToUpdate jsToSql);
          Sql.values := Object_values dataToUpdate |}.
Proof.
  intros Hne. unfold Sql.sqlForPartialUpdate.
  destruct dataToUpdate as [|kv rest]; [congruence|reflexivity].
Qed.



End PartialUpdate.

(** C5. An update mapping with zero entries makes the partial-update builder
    throw the client error [BadRequestError "No data"] whatever the
    translation table, so no SET fragment is returned; each model's [update]
    surfaces that error to its caller without running a statement. *)
Theorem C5_empty_update_rejected :
  (forall jsToSql, Sql.sqlForPartialUpdate [] jsToSql = Throw (BadRequestError "No data"))
  /\ (forall db handle, Company.update db handle [] = Throw (BadRequestError "No data"))
  /\ (forall db id, Job.update db id [] = Throw (BadRequestError "No data"))
  /\ (forall bcrypt_hash db username,
        User.update bcrypt_hash db username [] = Throw (BadRequestError "No data")).
Proof. repeat split; intros; reflexivity. Qed.







(** ** The filter loops of [Company.findAll] and [Job.findAll] *)

Section FilterLoops.

Implicit Types (filterKeys : list string) (filterVals : list value) (filters : obj).

Lemma entries_lookup {A} (l : list A) i : entries l !! i = pair i <$> l !! i.
Proof. unfold entries. apply list_lookup_imap. Qed.

Lemma entries_length {A} (l : list A) : length (entries l) = length l.
Proof. unfold entries. apply length_imap. Qed.

Lemma take_entries_S {A} (l : list A) i x :
  l !! i = Some x -> take (S i) (entries l) = take i (entries l) ++ [(i, x)].
Proof. intros Hi. apply take_S_r. by rewrite entries_lookup, Hi. Qed.

Lemma take_entries_all {A} (l : list A) : take (length l) (entries l) = entries l.
Proof. apply take_ge. by rewrite entries_length. Qed.

Lemma indexOf_NoDup filterKeys i key :
  NoDup filterKeys -> filterKeys !! i = Some key -> indexOf filterKeys key = Some i.
Proof.
  intros Hnd. revert i. induction Hnd as [|x rest Hx _ IH]; intros i Hi; [done|].
  destruct i as [|j]; simpl in *.
  - injection Hi as ->. by rewrite String.eqb_refl.
  - destruct (String.eqb_spec x key) as [->|_].
    + exfalso. apply Hx. by eapply list_elem_of_lookup_2.
    + by rewrite (IH j Hi).
Qed.

(** *** Companies *)

Lemma company_loop_prefix_S filterKeys i key :
  filterKeys !! i = Some key ->
  Company.loop_prefix (S i) filterKeys
  = Company.where_step (Company.loop_prefix i filterKeys) (i, key).
Proof.
  intros Hi. unfold Company.loop_prefix.
  by rewrite (take_entries_S _ _ _ Hi), fold_left_app.
Qed.

Lemma company_loop_prefix_all filterKeys :
  Company.loop_prefix (length filterKeys) filterKeys = Company.sqlWhereCondArr filterKeys.
Proof. unfold Company.loop_prefix. by rewrite take_entries_all. Qed.

Lemma company_where_step_known arr idx key :
  key ∈ company_filters ->
  Company.where_step arr (idx, key) = arr ++ [company_shape key +:+ pretty (idx + 1)].
Proof.
  intros Hin. unfold company_filters in Hin.
  repeat (apply elem_of_cons in Hin as [->|Hin]); [reflexivity..|].
  by apply elem_of_nil in Hin.
Qed.

Lemma company_where_step_unknown arr idx key :
  key ∉ company_filters -> Company.where_step arr (idx, key) = arr.
Proof.
  intros Hnot. unfold Company.where_step.
  rewrite !string_eqb_ne; [done|intros ->; apply Hnot; unfold company_filters; set_solver..].
Qed.

(** With recognized keys only, the loop emits one predicate per entry, the
    entry at index [i] under number [i + 1]. *)
Lemma company_sqlWhereCondArr_known filterKeys :
  Forall (fun key => key ∈ company_filters) filterKeys ->
  Company.sqlWhereCondArr filterKeys
  = imap (fun idx key => company_shape key +:+ pretty (idx + 1)) filterKeys.
Proof.
  intros Hall. rewrite <- company_loop_prefix_all.
  rewrite <- (firstn_all filterKeys) at 3.
  generalize (le_n (length filterKeys)).
  generalize (length filterKeys) at 1 3 4 as n.
  induction n as [|n IH]; intros Hn; [by rewrite take_0|].
  destruct (lookup_lt_is_Some_2 filterKeys n) as [key Hkey]; [lia|].
  rewrite (company_loop_prefix_S _ _ _ Hkey), IH by lia.
  rewrite company_where_step_known.
  - rewrite (take_S_r _ _ _ Hkey), imap_app. simpl.
    rewrite length_take_le by lia. by rewrite Nat.add_0_r.
  - rewrite Forall_lookup in Hall. by eapply Hall.
Qed.

(** *** Jobs *)

Lemma job_loop_prefix_S filterKeys filterVals i key :
  filterKeys !! i = Some key ->
  Job.loop_prefix (S i) filterKeys filterVals
  = Job.where_step filterKeys filterVals (Job.loop_prefix i filterKeys filterVals) (i, key).
Proof.
  intros Hi. unfold Job.loop_prefix.
  by rewrite (take_entries_S _ _ _ Hi), fold_left_app.
Qed.

Lemma job_loop_prefix_all filterKeys filterVals :
  Job.loop_prefix (length filterKeys) filterKeys filterVals
  = Job.where_loop filterKeys filterVals.
Proof. unfold Job.loop_prefix. by rewrite take_entries_all. Qed.

(** The value the loop body reads for the key of entry [i]. *)
Lemma job_entry_value filters i key v :
  NoDup (Object_keys filters) ->
  filters !! i = Some (key, v) ->
  match indexOf (Object_keys filters) key with
  | Some valIdx => at_index (Object_values filters) valIdx
  | None => VUndefined
  end = v.
Proof.
  intros Hnd Hi.
  rewrite (indexOf_NoDup _ i key Hnd).
  - unfold at_index, Object_values. by rewrite list_lookup_fmap, Hi.
  - unfold Object_keys. by rewrite list_lookup_fmap, Hi.
Qed.

Lemma job_where_step_unknown filterKeys filterVals st idx key :
  key ∉ job_filters -> Job.where_step filterKeys filterVals st (idx, key) = st.
Proof.
  intros Hnot. unfold Job.where_step.
  rewrite !string_eqb_ne; [done|intros ->; apply Hnot; unfold job_filters; set_solver..].
Qed.

Lemma job_where_step_parametric filters st idx i key v :
  NoDup (Object_keys filters) ->
  filters !! i = Some (key, v) ->
  key ∈ ["titleLike"; "minSalary"] ->
  Job.where_step (Object_keys filters) (Object_values filters) st (idx, key)
  = {| Job.sqlWhereCondArr := Job.sqlWhereCondArr st ++ [job_shape key +:+ pretty (idx + 1)];
       Job.values := Job.values st ++ [v] |}.
Proof.
  intros Hnd Hi Hin. unfold Job.where_step.
  rewrite (job_entry_value _ _ _ _ Hnd Hi).
  repeat (apply elem_of_cons in Hin as [->|Hin]); [reflexivity..|].
  by apply elem_of_nil in Hin.
Qed.

End FilterLoops.

(** C1. The jobs filter loop numbers a placeholder by the entry's position in
    the spec ([idx + 1]), not by the count of parameters emitted so far: on
    [{titleLike: "x", hasEquity: true, minSalary: 5}] the fragment carries the
    placeholders [$1] and [$3], a gap at [$2], next to the two parameters
    ["x"] and [5]. *)
Theorem C1_jobs_placeholder_gap :
  Job.build (Filters [("titleLike", VStr "x"); ("hasEquity", VBool true); ("minSalary", VNum 5)])
  = {| Job.sqlWhereCondStr := "WHERE title ILIKE $1 AND equity>'0' AND salary>=$3";
       Job.query_values := [VStr "x"; VNum 5] |}
  /\ Placeholder.placeholders
       (Job.sqlWhereCondStr
          (Job.build (Filters [("titleLike", VStr "x"); ("hasEquity", VBool true);
                               ("minSalary", VNum 5)])))
     = [1; 3]%nat.
Proof. split; vm_compute; reflexivity. Qed.

(** C2. In the jobs filter builder the placeholders and the parameter list
    fall out of step once a [hasEquity] entry precedes a parametric one: on
    [{hasEquity: true, minSalary: 5}] the only placeholder of the fragment is
    [$2] and the only parameter sits at index 0, so [$2] is bound to no
    parameter at all. *)
Theorem C2_jobs_misaligned :
  Job.build (Filters [("hasEquity", VBool true); ("minSalary", VNum 5)])
  = {| Job.sqlWhereCondStr := "WHERE equity>'0' AND salary>=$2";
       Job.query_values := [VNum 5] |}
  /\ Placeholder.placeholders
       (Job.sqlWhereCondStr (Job.build (Filters [("hasEquity", VBool true); ("minSalary", VNum 5)])))
     = [2%nat]
  /\ at_index (Job.query_values
                 (Job.build (Filters [("hasEquity", VBool true); ("minSalary", VNum 5)]))) (2 - 1)
     = VUndefined
  /\ ~ Placeholder.aligned
         (Job.sqlWhereCondStr (Job.build (Filters [("hasEquity", VBool true); ("minSalary", VNum 5)])))
         (Job.query_values (Job.build (Filters [("hasEquity", VBool true); ("minSalary", VNum 5)]))).
Proof.
  split; [vm_compute; reflexivity|]. split; [vm_compute; reflexivity|].
  split; [reflexivity|]. unfold Placeholder.aligned. vm_compute. discriminate.
Qed.

(** The companies builder, on a spec of recognized keys, keeps the two in
    step: the predicate of the entry at index [i] carries [$(i+1)] and the
    parameter at index [i] is that entry's value. *)
Lemma company_filter_alignment filters i key v :
  Forall (fun k => k ∈ company_filters) (Object_keys filters) ->
  filters !! i = Some (key, v) ->
  Company.sqlWhereCondArr (Object_keys filters) !! i
  = Some (company_shape key +:+ pretty (i + 1))
  /\ Company.filterVals (Company.build (Filters filters)) = Some (Object_values filters)
  /\ Object_values filters !! i = Some v
  /\ length (Company.sqlWhereCondArr (Object_keys filters)) = length (Object_values filters).
Proof.
  intros Hall Hi. rewrite (company_sqlWhereCondArr_known _ Hall).
  unfold Object_keys, Object_values.
  rewrite list_lookup_imap, length_imap, !list_lookup_fmap, !length_fmap, Hi. simpl.
  repeat split. destruct filters; [done|reflexivity].
Qed.

(** C4, as stated, fails: a filter spec with the unknown key [foo] makes
    neither builder fail; each returns a fragment from which the key's
    predicate is missing (for companies the value stays among the
    parameters). *)
Lemma C4_unknown_key_counterexample :
  Company.build (Filters [("nameLike", VStr "%a%"); ("foo", VNum 1)])
  = {| Company.sqlWhereCondStr := "WHERE name ILIKE $1";
       Company.sqlNumEmployeesSelectArg := EmptyString;
       Company.filterVals := Some [VStr "%a%"; VNum 1] |}
  /\ Job.build (Filters [("titleLike", VStr "%a%"); ("foo", VNum 1)])
     = {| Job.sqlWhereCondStr := "WHERE title ILIKE $1";
          Job.query_values := [VStr "%a%"] |}.
Proof. split; vm_compute; reflexivity. Qed.

(** C4, amended. A key outside the entity's enumerated filter set does not
    make the filter builder fail: the loop iteration that meets it leaves the
    arrays as they were, so no predicate is emitted for it.  In the companies
    builder the parameter list is nevertheless all the values of the spec, the
    unknown key's value among them; in the jobs builder the iteration pushes
    no parameter either.  (The arrays after all the iterations are the loop's
    result.) *)
Theorem C4_unknown_key_skipped filters i key v :
  filters !! i = Some (key, v) ->
  (key ∉ company_filters ->
     Company.loop_prefix (S i) (Object_keys filters) = Company.loop_prefix i (Object_keys filters)
     /\ Company.filterVals (Company.build (Filters filters)) = Some (Object_values filters)
     /\ Object_values filters !! i = Some v)
  /\ (key ∉ job_filters ->
        Job.loop_prefix (S i) (Object_keys filters) (Object_values filters)
        = Job.loop_prefix i (Object_keys filters) (Object_values filters))
  /\ Company.loop_prefix (length (Object_keys filters)) (Object_keys filters)
     = Company.sqlWhereCondArr (Object_keys filters)
  /\ Job.loop_prefix (length (Object_keys filters)) (Object_keys filters) (Object_values filters)
     = Job.where_loop (Object_keys filters) (Object_values filters).
Proof.
  intros Hi.
  assert (Object_keys filters !! i = Some key) as Hkey.
  { unfold Object_keys. by rewrite list_lookup_fmap, Hi. }
  split; [|split; [|split; [apply company_loop_prefix_all|apply job_loop_prefix_all]]];
    intros Hnot.
  - rewrite (company_loop_prefix_S _ _ _ Hkey), company_where_step_unknown by done.
    split; [reflexivity|]. split.
    + destruct filters; [done|reflexivity].
    + unfold Object_values. by rewrite list_lookup_fmap, Hi.
  - by rewrite (job_loop_prefix_S _ _ _ _ Hkey), job_where_step_unknown.
Qed.

Lemma C4_unknown_key_skipped_witness :
  ("foo" ∉ company_filters ->
     Company.loop_prefix 2 ["nameLike"; "foo"] = Company.loop_prefix 1 ["nameLike"; "foo"]
     /\ Company.filterVals (Company.build (Filters [("nameLike", VStr "%a%"); ("foo", VNum 1)]))
        = Some [VStr "%a%"; VNum 1]
     /\ [VStr "%a%"; VNum 1] !! 1%nat = Some (VNum 1))
  /\ ("foo" ∉ job_filters ->
        Job.loop_prefix 2 ["nameLike"; "foo"] [VStr "%a%"; VNum 1]
        = Job.loop_prefix 1 ["nameLike"; "foo"] [VStr "%a%"; VNum 1])
  /\ Company.loop_prefix 2 ["nameLike"; "foo"] = Company.sqlWhereCondArr ["nameLike"; "foo"]
  /\ Job.loop_prefix 2 ["nameLike"; "foo"] [VStr "%a%"; VNum 1]
     = Job.where_loop ["nameLike"; "foo"] [VStr "%a%"; VNum 1].
Proof.
  apply (C4_unknown_key_skipped [("nameLike", VStr "%a%"); ("foo", VNum 1)] 1 "foo" (VNum 1)).
  reflexivity.
Defined.

(** ** Assembled list queries *)

Lemma string_length_app (a b : string) :
  String.length (a +:+ b) = String.length a + String.length b.
Proof. induction a as [|c a IH]; simpl; [done|by rewrite IH]. Qed.

(** C9, as stated, fails for companies: no single projection text precedes
    the filter fragment on every filter input, since the employee-count
    column is selected only under an employee-count filter. *)
Lemma C9_fixed_projection_counterexample :
  ~ exists projection : string,
      forall f, sql (Company.findAll_statement f)
                = projection +:+ Company.sqlWhereCondStr (Company.build f) +:+ Company.order_by.
Proof.
  intros [projection H].
  pose proof (f_equal String.length (H NoFilters)) as H1.
  pose proof (f_equal String.length (H (Filters [("minEmployees", VNum 1)]))) as H2.
  rewrite !string_length_app in H1, H2.
  set (a1 := String.length (sql (Company.findAll_statement NoFilters))) in H1.
  set (b1 := String.length (Company.sqlWhereCondStr (Company.build NoFilters))) in H1.
  set (a2 := String.length (sql (Company.findAll_statement (Filters [("minEmployees", VNum 1)])))) in H2.
  set (b2 := String.length
               (Company.sqlWhereCondStr (Company.build (Filters [("minEmployees", VNum 1)])))) in H2.
  set (c := String.length Company.order_by) in H1, H2.
  vm_compute in a1, b1, a2, b2, c. lia.
Qed.

(** C9, amended. For every filter input the companies and jobs list queries
    are the entity's SELECT/FROM projection, then the filter fragment, then
    the entity's fixed ORDER BY clause (by name for companies, by id for
    jobs).  The fragment is the empty string when the filter spec has zero
    entries and [WHERE] followed by the predicates joined with [AND]
    otherwise.  The jobs projection is fixed; the companies projection is
    fixed but for the employee-count column, which it holds exactly when the
    spec has a [minEmployees] or [maxEmployees] key.  The users list query
    takes no filter: it is the users projection followed by ORDER BY on the
    username, and it is run without parameters. *)
Theorem C9_list_query_shape (f : filtersObj) :
  sql (Company.findAll_statement f)
  = company_projection
      (includes (Object_keys (filter_spec f)) "minEmployees"
       || includes (Object_keys (filter_spec f)) "maxEmployees")
    +:+ Company.sqlWhereCondStr (Company.build f) +:+ nl +:+ "    ORDER BY name"
  /\ Company.sqlWhereCondStr (Company.build f)
     = match filter_spec f with
       | [] => EmptyString
       | _ :: _ => "WHERE " +:+ join " AND " (Company.sqlWhereCondArr (Object_keys (filter_spec f)))
       end
  /\ sql (Job.findAll_statement f)
     = job_projection +:+ Job.sqlWhereCondStr (Job.build f) +:+ nl +:+ "      ORDER BY id"
  /\ Job.sqlWhereCondStr (Job.build f)
     = match filter_spec f with
       | [] => EmptyString
       | _ :: _ =>
           "WHERE " +:+ join " AND "
             (Job.sqlWhereCondArr
                (Job.where_loop (Object_keys (filter_spec f)) (Object_values (filter_spec f))))
       end
  /\ (forall db,
        User.findAll db
        = User.aggregate (db (user_projection +:+ "ORDER BY users.username") None)).
Proof.
  split_and!.
  - destruct f as [|[|kv rest]]; [reflexivity..|].
    unfold Company.findAll_statement, Company.build, Company.query, Company.select_from,
      company_projection.
    cbn [has_filters Object_keys fmap list_fmap length Nat.ltb Nat.leb filter_spec sql
         Company.sqlNumEmployeesSelectArg Company.sqlWhereCondStr].
    by destruct (_ || _).
  - destruct f as [|[|kv rest]]; reflexivity.
  - destruct f as [|[|kv rest]]; reflexivity.
  - destruct f as [|[|kv rest]]; reflexivity.
  - reflexivity.
Qed.

(** ** Placeholders of the generated texts *)

Section Scanning.

Import Placeholder.

Lemma string_app_assoc (a b c : string) : (a +:+ b) +:+ c = a +:+ (b +:+ c).
Proof.
  induction a as [|x a IH]; [done|].
  change (String x ((a +:+ b) +:+ c) = String x (a +:+ (b +:+ c))). by rewrite IH.
Qed.

Lemma after_inert c : inert_char c = true -> after c = Plain.
Proof.
  unfold inert_char, after. intros H. apply negb_true_iff in H.
  apply orb_false_iff in H as [H H3]. apply orb_false_iff in H as [H1 H2].
  by rewrite H1, H2, H3.
Qed.

Lemma scan_inert s t : inert s = true -> scan Plain (s +:+ t) = scan Plain t.
Proof.
  induction s as [|c s IH]; simpl; [done|]. intros H.
  apply andb_true_iff in H as [Hc Hs]. rewrite (after_inert _ Hc). by apply IH.
Qed.

Lemma scan_quoted name t :
  no_dquote name = true -> scan (Quoted "034"%char) (name +:+ dq +:+ t) = scan Plain t.
Proof.
  induction name as [|c name IH]; simpl; [done|]. intros H.
  apply andb_true_iff in H as [Hc Hs]. apply negb_true_iff in Hc. rewrite Hc. by apply IH.
Qed.

Lemma scan_ends_number n t :
  ends_number t = true -> scan (Digits n) t = n :: scan Plain t.
Proof.
  destruct t as [|c t]; simpl; [done|]. intros H.
  apply andb_true_iff in H as [Hc Hd]. apply negb_true_iff in Hd.
  by rewrite Hd, (after_inert _ Hc).
Qed.

Lemma pretty_N_char_digit (d : N) :
  (d < 10)%N ->
  is_digit (pretty_N_char d) = true /\ digit_value (pretty_N_char d) = N.to_nat d.
Proof.
  intros Hd.
  assert (d = 0 \/ d = 1 \/ d = 2 \/ d = 3 \/ d = 4 \/ d = 5 \/ d = 6 \/ d = 7 \/ d = 8 \/ d = 9)%N
    as Hcases by lia.
  repeat (destruct Hcases as [->|Hcases]; [by split|]). by subst.
Qed.

Lemma pretty_N_go_app (x : N) : forall s t, pretty_N_go x s +:+ t = pretty_N_go x (s +:+ t).
Proof.
  induction (N.lt_wf_0 x) as [x _ IH]. intros s t.
  destruct (decide (0 < x)%N) as [Hpos|Hzero].
  - rewrite (pretty_N_go_step x s), (pretty_N_go_step x (s +:+ t)) by done.
    rewrite IH; [reflexivity|]. by apply N.div_lt.
  - assert (x = 0%N) as -> by lia. by rewrite !pretty_N_go_0.
Qed.

(** Reading the digits of [x] after the number [m]. *)
Lemma scan_digits_go (x : N) :
  exists k, forall m s,
    scan (Digits m) (pretty_N_go x s) = scan (Digits (m * 10 ^ k + N.to_nat x)) s.
Proof.
  induction (N.lt_wf_0 x) as [x _ IH].
  destruct (decide (0 < x)%N) as [Hpos|Hzero].
  - destruct (IH (x `div` 10)%N) as [k Hk]; [by apply N.div_lt|].
    exists (S k). intros m s. rewrite pretty_N_go_step by done. rewrite Hk. simpl scan.
    destruct (pretty_N_char_digit (x `mod` 10)%N) as [-> ->]; [by apply N.mod_lt|].
    f_equal. f_equal.
    pose proof (N.div_mod x 10 ltac:(done)) as Hdm.
    assert (N.to_nat x = 10 * N.to_nat (x `div` 10) + N.to_nat (x `mod` 10))%nat as -> by lia.
    lia.
  - assert (x = 0%N) as -> by lia. exists 0%nat. intros m s.
    rewrite pretty_N_go_0. f_equal. f_equal. simpl. lia.
Qed.

Lemma scan_dollar_go (x : N) : forall s,
  (0 < x)%N -> scan Dollar (pretty_N_go x s) = scan (Digits 0) (pretty_N_go x s).
Proof.
  induction (N.lt_wf_0 x) as [x _ IH]. intros s Hpos.
  rewrite pretty_N_go_step by done.
  destruct (decide (0 < x `div` 10)%N) as [Hdiv|Hdiv].
  - apply IH; [by apply N.div_lt|done].
  - assert (x `div` 10 = 0)%N as -> by (by apply N.le_0_r, N.nlt_ge).
    rewrite pretty_N_go_0. simpl.
    by destruct (pretty_N_char_digit (x `mod` 10)%N) as [-> _]; [apply N.mod_lt|].
Qed.

(** A dollar sign followed by the decimal text of a positive number is one
    placeholder. *)
Lemma scan_placeholder (n : nat) t :
  (0 < n)%nat -> scan Dollar (pretty n +:+ t) = scan (Digits n) t.
Proof.
  intros Hn. unfold pretty, pretty_nat, pretty, pretty_N.
  destruct (decide (N.of_nat n = 0%N)) as [H0|_]; [lia|].
  rewrite pretty_N_go_app. simpl.
  rewrite scan_dollar_go by lia.
  destruct (scan_digits_go (N.of_nat n)) as [k Hk]. rewrite Hk.
  f_equal. f_equal. lia.
Qed.

Lemma string_app_nil_r (s : string) : s +:+ EmptyString = s.
Proof.
  induction s as [|c s IH]; [done|].
  change (String c (s +:+ EmptyString) = String c s). by rewrite IH.
Qed.

Lemma scan_inert_dollar s n t :
  inert s = true -> (0 < n)%nat ->
  scan Plain ((s +:+ "$") +:+ pretty n +:+ t) = scan (Digits n) t.
Proof.
  intros Hs Hn. rewrite string_app_assoc, scan_inert by done.
  change (scan Dollar (pretty n +:+ t) = scan (Digits n) t). by apply scan_placeholder.
Qed.

(** A list of numbered items, each ending in the placeholder of its rank,
    joined by an inert separator: the placeholders are the ranks. *)
Lemma scan_join {A} (body : A -> string) (sep : string) (t : string) (keys : list A) :
  (forall k n t', k ∈ keys -> (0 < n)%nat ->
     scan Plain (body k +:+ pretty n +:+ t') = scan (Digits n) t') ->
  sep <> EmptyString -> ends_number sep = true -> inert sep = true ->
  ends_number t = true ->
  keys <> [] ->
  forall start,
    scan Plain (join sep (imap (fun i k => body k +:+ pretty (start + i + 1)) keys) +:+ t)
    = seq (start + 1) (length keys) ++ scan Plain t.
Proof.
  intros Hbody Hsep Hsep_end Hsep_inert Ht.
  induction keys as [|k rest IH]; intros Hne start; [done|clear Hne].
  assert (forall t', ends_number t' = true ->
            scan Plain ((body k +:+ pretty (start + 0 + 1)) +:+ t')
            = (start + 1)%nat :: scan Plain t') as Hitem.
  { intros t' Ht'. rewrite string_app_assoc, Hbody by (apply list_elem_of_here || lia).
    rewrite scan_ends_number by done. f_equal. lia. }
  destruct rest as [|k' rest].
  - cbn [imap join length seq app]. by rewrite Hitem.
  - change (imap (fun i k0 => body k0 +:+ pretty (start + i + 1)) (k :: k' :: rest))
      with ((body k +:+ pretty (start + 0 + 1))
            :: imap ((fun i k0 => body k0 +:+ pretty (start + i + 1)) ∘ S) (k' :: rest)).
    change (join sep (?x :: imap ?f (k' :: rest)))
      with (x +:+ sep +:+ join sep (imap f (k' :: rest))).
    rewrite !string_app_assoc, <- (string_app_assoc (body k)), Hitem.
    + rewrite scan_inert by done.
      rewrite (imap_ext _ (fun i k0 => body k0 +:+ pretty (S start + i + 1)) (k' :: rest)).
      * rewrite IH; [|intros; apply Hbody; [by apply list_elem_of_further|done]|done].
        cbn [length]. by replace (S start + 1)%nat with (S (start + 1)) by lia.
      * intros i x _. simpl. do 2 f_equal. lia.
    + destruct sep as [|c sep]; [done|exact Hsep_end].
Qed.

(** *** The companies filter fragment *)

Lemma company_shape_scan key n t :
  key ∈ company_filters -> (0 < n)%nat ->
  scan Plain (company_shape key +:+ pretty n +:+ t) = scan (Digits n) t.
Proof.
  intros Hin Hn. unfold company_filters in Hin.
  repeat (apply elem_of_cons in Hin as [->|Hin]); [| | |by apply elem_of_nil in Hin].
  - change (company_shape "nameLike") with ("name ILIKE " +:+ "$"). by apply scan_inert_dollar.
  - change (company_shape "minEmployees") with ("num_employees>=" +:+ "$").
    by apply scan_inert_dollar.
  - change (company_shape "maxEmployees") with ("num_employees<=" +:+ "$").
    by apply scan_inert_dollar.
Qed.

(** On a non-empty spec of recognized keys the companies fragment holds the
    placeholders [$1 .. $n] in order, [n] the number of parameters. *)
Lemma company_fragment_aligned filters :
  filters <> [] ->
  Forall (fun key => key ∈ company_filters) (Object_keys filters) ->
  Company.filterVals (Company.build (Filters filters)) = Some (Object_values filters)
  /\ aligned (Company.sqlWhereCondStr (Company.build (Filters filters))) (Object_values filters).
Proof.
  intros Hne Hall. destruct filters as [|kv rest] eqn:Efilters; [done|]. rewrite <- Efilters in *.
  assert (Company.build (Filters filters)
          = {| Company.sqlWhereCondStr :=
                 "WHERE " +:+ join " AND " (Company.sqlWhereCondArr (Object_keys filters));
               Company.sqlNumEmployeesSelectArg :=
                 Company.sqlNumEmployeesSelectArg (Company.build (Filters filters));
               Company.filterVals := Some (Object_values filters) |}) as ->.
  { by rewrite Efilters. }
  split; [reflexivity|]. unfold aligned, placeholders. cbn [Company.sqlWhereCondStr].
  rewrite (scan_inert "WHERE ") by reflexivity.
  rewrite company_sqlWhereCondArr_known by done.
  rewrite <- (string_app_nil_r (join _ _)).
  change (fun idx key => company_shape key +:+ pretty (idx + 1))
    with (fun idx key => company_shape key +:+ pretty (0 + idx + 1)).
  rewrite (scan_join company_shape " AND " EmptyString (Object_keys filters)
             (fun k n t' Hk Hn => company_shape_scan k n t' (proj1 (Forall_forall _ _) Hall k Hk) Hn)
             ltac:(done) eq_refl eq_refl eq_refl) with (start := 0%nat).
  - unfold Object_keys, Object_values. by rewrite app_nil_r, !length_fmap.
  - rewrite Efilters. done.
Qed.

(** *** The update fragment and the update statements *)

Lemma assignment_scan (col : string) n t :
  no_dquote col = true -> (0 < n)%nat ->
  scan Plain ((dq +:+ col +:+ dq +:+ "=$") +:+ pretty n +:+ t) = scan (Digits n) t.
Proof.
  intros Hcol Hn. rewrite !string_app_assoc.
  change (scan (Quoted "034"%char) (col +:+ dq +:+ "=$" +:+ pretty n +:+ t) = scan (Digits n) t).
  rewrite scan_quoted by done.
  change (scan Dollar (pretty n +:+ t) = scan (Digits n) t). by apply scan_placeholder.
Qed.

Lemma cols_scan dataToUpdate jsToSql t :
  dataToUpdate <> [] ->
  Forall (fun name => no_dquote (resolved_column jsToSql name) = true) (Object_keys dataToUpdate) ->
  ends_number t = true ->
  scan Plain (join ", " (Sql.cols dataToUpdate jsToSql) +:+ t)
  = seq 1 (length dataToUpdate) ++ scan Plain t.
Proof.
  intros Hne Hall Ht. unfold Sql.cols.
  rewrite (imap_ext _ (fun i name => (dq +:+ resolved_column jsToSql name +:+ dq +:+ "=$")
                                     +:+ pretty (0 + i + 1)) (Object_keys dataToUpdate)).
  - rewrite (scan_join (fun name => dq +:+ resolved_column jsToSql name +:+ dq +:+ "=$")
               ", " t (Object_keys dataToUpdate)); try done.
    + unfold Object_keys. by rewrite length_fmap.
    + intros name n t' Hin Hn. apply assignment_scan; [|done].
      rewrite Forall_forall in Hall. by apply Hall.
    + unfold Object_keys. by destruct dataToUpdate.
  - intros i name _. rewrite col_assignment_resolved. simpl. by rewrite !string_app_assoc.
Qed.

Lemma ends_number_app (b x : string) :
  b <> EmptyString -> ends_number b = true -> ends_number (b +:+ x) = true.
Proof. by destruct b. Qed.

(** An UPDATE template: inert text, the SET fragment, inert text up to the
    key's placeholder, and a tail without placeholders. *)
Lemma update_template_scan (a b c : string) dataToUpdate jsToSql :
  inert a = true -> inert b = true -> b <> EmptyString -> ends_number b = true ->
  ends_number c = true -> scan Plain c = [] ->
  dataToUpdate <> [] ->
  Forall (fun name => no_dquote (resolved_column jsToSql name) = true) (Object_keys dataToUpdate) ->
  scan Plain (a +:+ join ", " (Sql.cols dataToUpdate jsToSql) +:+ b
              +:+ ("$" +:+ pretty (length dataToUpdate + 1)) +:+ c)
  = seq 1 (length dataToUpdate + 1).
Proof.
  intros Ha Hb Hb_ne Hb_end Hc_end Hc Hne Hall.
  rewrite scan_inert, cols_scan by (done || by apply ends_number_app).
  rewrite scan_inert, string_app_assoc by done.
  change (scan Plain ("$" +:+ ?x)) with (scan Dollar x).
  rewrite scan_placeholder, scan_ends_number, Hc by (done || lia).
  rewrite seq_app. simpl. do 2 f_equal. lia.
Qed.

Lemma resolved_column_no_dquote jsToSql name :
  map_Forall (fun _ col => no_dquote (to_string col) = true) jsToSql ->
  no_dquote name = true ->
  no_dquote (resolved_column jsToSql name) = true.
Proof.
  intros Htable Hname. unfold resolved_column.
  destruct (jsToSql !! name) as [col|] eqn:Hcol.
  - destruct (truthy col); [|done]. by apply (Htable name).
  - case_bool_decide as Hin; [|done]. by apply inherited_member.
Qed.

Lemma company_table_no_dquote :
  map_Forall (fun _ col => no_dquote (to_string col) = true) Company.jsToSql.
Proof.
  intros k v Hk. apply elem_of_list_to_map_2 in Hk.
  repeat (apply elem_of_cons in Hk as [Hk|Hk]; [by injection Hk as -> ->|]).
  by apply elem_of_nil in Hk.
Qed.

Lemma job_table_no_dquote :
  map_Forall (fun _ col => no_dquote (to_string col) = true) Job.jsToSql.
Proof.
  intros k v Hk. apply elem_of_list_to_map_2 in Hk.
  repeat (apply elem_of_cons in Hk as [Hk|Hk]; [by injection Hk as -> ->|]).
  by apply elem_of_nil in Hk.
Qed.

Lemma user_table_no_dquote :
  map_Forall (fun _ col => no_dquote (to_string col) = true) User.jsToSql.
Proof.
  intros k v Hk. apply elem_of_list_to_map_2 in Hk.
  repeat (apply elem_of_cons in Hk as [Hk|Hk]; [by injection Hk as -> ->|]).
  by apply elem_of_nil in Hk.
Qed.

Lemma resolved_names_no_dquote jsToSql (names : list string) :
  map_Forall (fun _ col => no_dquote (to_string col) = true) jsToSql ->
  Forall (fun name => no_dquote name = true) names ->
  Forall (fun name => no_dquote (resolved_column jsToSql name) = true) names.
Proof.
  intros Htable Hnames. eapply Forall_impl; [exact Hnames|].
  intros name. by apply resolved_column_no_dquote.
Qed.

Lemma sqlForPartialUpdate_Ok dataToUpdate jsToSql p :
  Sql.sqlForPartialUpdate dataToUpdate jsToSql = Ok p ->
  dataToUpdate <> []
  /\ p = {| Sql.setCols := join ", " (Sql.cols dataToUpdate jsToSql);
            Sql.values := Object_values dataToUpdate |}.
Proof.
  destruct dataToUpdate as [|kv rest]; [discriminate|].
  intros Hp. split; [done|]. rewrite sqlForPartialUpdate_nonempty in Hp by done. congruence.
Qed.

(** The fragment of the update builder holds the placeholders [$1 .. $n] in
    order, [n] the number of parameters, when no resolved column holds a
    double quote. *)
Lemma update_fragment_aligned dataToUpdate jsToSql p :
  Sql.sqlForPartialUpdate dataToUpdate jsToSql = Ok p ->
  Forall (fun name => no_dquote (resolved_column jsToSql name) = true) (Object_keys dataToUpdate) ->
  aligned (Sql.setCols p) (Sql.values p).
Proof.
  intros Hp Hall. apply sqlForPartialUpdate_Ok in Hp as [Hne ->].
  unfold aligned, placeholders. simpl.
  rewrite <- (string_app_nil_r (join _ _)), cols_scan by done.
  unfold Object_values. by rewrite app_nil_r, length_fmap.
Qed.

(** The statement of each update by key holds the placeholders
    [$1 .. $(n+1)] in order, [n] the number of SET parameters: the key's
    placeholder is the last one. *)
Lemma company_update_aligned key data p :
  Sql.sqlForPartialUpdate data Company.jsToSql = Ok p ->
  Forall (fun name => no_dquote name = true) (Object_keys data) ->
  aligned (sql (Company.update_statement key p)) (Sql.values p ++ [key]).
Proof.
  intros Hp Hnames. apply sqlForPartialUpdate_Ok in Hp as [Hne ->].
  unfold aligned, placeholders. simpl.
  rewrite length_app. unfold Object_values. rewrite length_fmap.
  apply (update_template_scan
           ("UPDATE companies " +:+ nl +:+ "                      SET ")
           (" " +:+ nl +:+ "                      WHERE handle = ")
           (" " +:+ nl
            +:+ "                      RETURNING handle, " +:+ nl
            +:+ "                                name, " +:+ nl
            +:+ "                                description, " +:+ nl
            +:+ "                                num_employees AS " +:+ dq +:+ "numEmployees" +:+ dq
            +:+ ", " +:+ nl
            +:+ "                                logo_url AS " +:+ dq +:+ "logoUrl" +:+ dq));
    try done.
  by apply resolved_names_no_dquote, Hnames; apply company_table_no_dquote.
Qed.

Lemma job_update_aligned key data p :
  Sql.sqlForPartialUpdate data Job.jsToSql = Ok p ->
  Forall (fun name => no_dquote name = true) (Object_keys data) ->
  aligned (sql (Job.update_statement key p)) (Sql.values p ++ [key]).
Proof.
  intros Hp Hnames. apply sqlForPartialUpdate_Ok in Hp as [Hne ->].
  unfold aligned, placeholders. simpl.
  rewrite length_app. unfold Object_values. rewrite length_fmap.
  apply (update_template_scan
           ("UPDATE jobs " +:+ nl +:+ "                      SET ")
           (" " +:+ nl +:+ "                      WHERE id = ")
           (" " +:+ nl
            +:+ "                      RETURNING id, title, salary, equity, company_handle"));
    try done.
  by apply resolved_names_no_dquote, Hnames; apply job_table_no_dquote.
Qed.

Lemma user_update_aligned key data p :
  Sql.sqlForPartialUpdate data User.jsToSql = Ok p ->
  Forall (fun name => no_dquote name = true) (Object_keys data) ->
  aligned (sql (User.update_statement key p)) (Sql.values p ++ [key]).
Proof.
  intros Hp Hnames. apply sqlForPartialUpdate_Ok in Hp as [Hne ->].
  unfold aligned, placeholders. simpl.
  rewrite length_app. unfold Object_values. rewrite length_fmap.
  apply (update_template_scan
           ("UPDATE users " +:+ nl +:+ "                      SET ")
           (" " +:+ nl +:+ "                      WHERE username = ")
           (" " +:+ nl
            +:+ "                      RETURNING username," +:+ nl
            +:+ "                                first_name AS " +:+ dq +:+ "firstName" +:+ dq
            +:+ "," +:+ nl
            +:+ "                                last_name AS " +:+ dq +:+ "lastName" +:+ dq
            +:+ "," +:+ nl
            +:+ "                                email," +:+ nl
            +:+ "                                is_admin AS " +:+ dq +:+ "isAdmin" +:+ dq));
    try done.
  by apply resolved_names_no_dquote, Hnames; apply user_table_no_dquote.
Qed.

(** Hashing the password changes no key of the update. *)
Lemma set_present_keys (data : obj) name v :
  truthy (get data name) = true -> Object_keys (Js.set data name v) = Object_keys data.
Proof.
  induction data as [|[k w] rest IH]; simpl; [done|]. intros Hget.
  destruct (String.eqb k name); [done|]. simpl. f_equal. by apply IH.
Qed.

Lemma hash_password_keys bcrypt_hash (data data' : obj) :
  User.hash_password bcrypt_hash data = Ok data' -> Object_keys data' = Object_keys data.
Proof.
  unfold User.hash_password.
  destruct (truthy (get data "password")) eqn:Hpw; [|congruence].
  destruct (bcrypt_hash _); [|discriminate].
  intros [= <-]. by apply set_present_keys.
Qed.

End Scanning.

(** ** Updates by key *)

Section UpdateByKey.

Variable db : database.
Implicit Types (key : value) (data : obj) (p : Sql.partial_update).

Lemma key_is_last (values : list value) key :
  (values ++ [key]) !! length values = Some key
  /\ length (values ++ [key]) = length values + 1.
Proof. split; [by rewrite list_lookup_middle|by rewrite length_app]. Qed.

Lemma first_row_by_first_row (rows : list obj) not_found post :
  match rows !! 0%nat with
  | None => Throw (NotFoundError not_found)
  | Some row => Ok (post row)
  end = by_first_row rows not_found post.
Proof. by destruct rows. Qed.

Lemma company_update_run key data p :
  Sql.sqlForPartialUpdate data Company.jsToSql = Ok p ->
  key_in_final_placeholder "companies" "handle" company_returning
        (Company.update_statement key p) p key
  /\ Company.update db key data
     = by_first_row (db (sql (Company.update_statement key p)) (args (Company.update_statement key p)))
         ("No company: " +:+ to_string key) id.
Proof.
  intros Hp. split.
  - repeat split; apply key_is_last.
  - unfold Company.update. rewrite Hp. apply (first_row_by_first_row _ _ id).
Qed.

Lemma job_update_run key data p :
  Sql.sqlForPartialUpdate data Job.jsToSql = Ok p ->
  key_in_final_placeholder "jobs" "id" job_returning (Job.update_statement key p) p key
  /\ Job.update db key data
     = by_first_row (db (sql (Job.update_statement key p)) (args (Job.update_statement key p)))
         ("No job: " +:+ to_string key) id.
Proof.
  intros Hp. split.
  - repeat split; apply key_is_last.
  - unfold Job.update. rewrite Hp. apply (first_row_by_first_row _ _ id).
Qed.

Lemma user_update_run bcrypt_hash key data data' p :
  User.hash_password bcrypt_hash data = Ok data' ->
  Sql.sqlForPartialUpdate data' User.jsToSql = Ok p ->
  key_in_final_placeholder "users" "username" user_returning
             (User.update_statement key p) p key
  /\ User.update bcrypt_hash db key data
     = by_first_row (db (sql (User.update_statement key p)) (args (User.update_statement key p)))
         ("No user: " +:+ to_string key) (fun user => delete_prop user "password").
Proof.
  intros Hh Hp. split.
  - repeat split; apply key_is_last.
  - unfold User.update. rewrite Hh, Hp.
    apply (first_row_by_first_row _ _ (fun user => delete_prop user "password")).
Qed.

Lemma set_nonempty data name v : Js.set data name v <> [].
Proof. destruct data as [|[k w] rest]; simpl; [done|]. by destruct (String.eqb k name). Qed.

Lemma hash_password_nonempty bcrypt_hash data data' :
  data <> [] -> User.hash_password bcrypt_hash data = Ok data' -> data' <> [].
Proof.
  unfold User.hash_password. intros Hne.
  destruct (truthy (get data "password")); [|congruence].
  destruct (bcrypt_hash _); [|discriminate].
  intros [= <-]. apply set_nonempty.
Qed.

End UpdateByKey.

(** C7. For every non-empty sparse update, every key and every answer of the
    storage engine, each model's update by key runs the statement
    [UPDATE <table> SET <fragment> WHERE <key column> = $(n+1) RETURNING
    <columns>], with the SET fragment of the builder and [n] its number of
    parameters: on [companies] by [handle], on [jobs] by [id], on [users] by
    [username], each returning the columns of the affected row.  The key is
    bound as the last parameter, and the operation returns the first
    returned row; when the engine returns no row it throws
    [NotFoundError].  When no field name holds a double quote, the
    placeholders of the statement are [$1 .. $(n+1)] in order, [n] the number
    of SET parameters, so the key's placeholder is the last of the text.  For
    users this is what happens once the password hashing, if any, has
    succeeded; if the hashing library rejects, its error is the outcome. *)
Theorem C7_update_by_key (bcrypt_hash : value -> result value) (db : database)
    (key : value) (data : obj) :
  data <> [] ->
  (exists p,
      Sql.sqlForPartialUpdate data Company.jsToSql = Ok p
      /\ key_in_final_placeholder "companies" "handle" company_returning
        (Company.update_statement key p) p key
      /\ (Forall (fun name => Placeholder.no_dquote name = true) (Object_keys data) ->
          Placeholder.aligned (sql (Company.update_statement key p)) (Sql.values p ++ [key]))
      /\ Company.update db key data
         = by_first_row
             (db (sql (Company.update_statement key p)) (args (Company.update_statement key p)))
             ("No company: " +:+ to_string key) id)
  /\ (exists p,
        Sql.sqlForPartialUpdate data Job.jsToSql = Ok p
        /\ key_in_final_placeholder "jobs" "id" job_returning (Job.update_statement key p) p key
        /\ (Forall (fun name => Placeholder.no_dquote name = true) (Object_keys data) ->
            Placeholder.aligned (sql (Job.update_statement key p)) (Sql.values p ++ [key]))
        /\ Job.update db key data
           = by_first_row
               (db (sql (Job.update_statement key p)) (args (Job.update_statement key p)))
               ("No job: " +:+ to_string key) id)
  /\ match User.hash_password bcrypt_hash data with
     | Throw e => User.update bcrypt_hash db key data = Throw e
     | Ok data' =>
         exists p,
           Sql.sqlForPartialUpdate data' User.jsToSql = Ok p
           /\ key_in_final_placeholder "users" "username" user_returning
             (User.update_statement key p) p key
           /\ (Forall (fun name => Placeholder.no_dquote name = true) (Object_keys data) ->
               Placeholder.aligned (sql (User.update_statement key p)) (Sql.values p ++ [key]))
           /\ User.update bcrypt_hash db key data
              = by_first_row
                  (db (sql (User.update_statement key p)) (args (User.update_statement key p)))
                  ("No user: " +:+ to_string key) (fun user => delete_prop user "password")
     end.
Proof.
  intros Hne. split; [|split].
  - eexists. split; [by apply sqlForPartialUpdate_nonempty|].
    destruct (company_update_run db key data _ (sqlForPartialUpdate_nonempty _ _ Hne))
      as [Hkey Hrun].
    split; [exact Hkey|]. split; [|exact Hrun].
    intros Hnames. by apply (company_update_aligned key data), Hnames; apply sqlForPartialUpdate_nonempty.
  - eexists. split; [by apply sqlForPartialUpdate_nonempty|].
    destruct (job_update_run db key data _ (sqlForPartialUpdate_nonempty _ _ Hne))
      as [Hkey Hrun].
    split; [exact Hkey|]. split; [|exact Hrun].
    intros Hnames. by apply (job_update_aligned key data), Hnames; apply sqlForPartialUpdate_nonempty.
  - destruct (User.hash_password bcrypt_hash data) as [data'|e] eqn:Hh.
    + pose proof (hash_password_nonempty _ _ _ Hne Hh) as Hne'.
      eexists. split; [by apply sqlForPartialUpdate_nonempty|].
      destruct (user_update_run db bcrypt_hash key data data' _ Hh
                  (sqlForPartialUpdate_nonempty _ _ Hne')) as [Hkey Hrun].
      split; [exact Hkey|]. split; [|exact Hrun].
      intros Hnames. apply (user_update_aligned key data').
      * by apply sqlForPartialUpdate_nonempty.
      * by rewrite (hash_password_keys _ _ _ Hh).
    + unfold User.update. by rewrite Hh.
Qed.

Lemma C7_update_by_key_witness :
  exists p,
    Sql.sqlForPartialUpdate [("name", VStr "New")] Company.jsToSql = Ok p
    /\ key_in_final_placeholder "companies" "handle" company_returning
         (Company.update_statement (VStr "nope") p) p (VStr "nope")
    /\ Company.update (fun _ _ => []) (VStr "nope") [("name", VStr "New")]
       = Throw (NotFoundError "No company: nope").
Proof.
  destruct (C7_update_by_key (fun v => Ok v) (fun _ _ => []) (VStr "nope") [("name", VStr "New")])
    as [(p & Hp & Hkey & _ & Hrun) _]; [discriminate|].
  exists p. split; [exact Hp|]. split; [exact Hkey|]. rewrite Hrun. reflexivity.
Defined.

(** ** Row aggregation in [User.findAll] *)

Section Aggregation.

Import Heap.
Implicit Types (rows pre suf rest : list obj) (acc : list value) (copies : heap)
  (users : list User.user_object) (groups : list (obj * list value)).

Lemma next_row_lookup pre (r : obj) rest :
  (pre ++ r :: rest) !! (length pre + 0 + 1)%nat = rest !! 0%nat.
Proof.
  rewrite lookup_app_r by lia.
  by replace (length pre + 0 + 1 - length pre)%nat with 1%nat by lia.
Qed.

Lemma extend_first_nil groups : extend_first [] groups = groups.
Proof. by destruct groups as [|[parent children] rest]. Qed.

Lemma group_rows_nonempty (r : obj) rest : group_rows (r :: rest) <> [].
Proof.
  simpl. destruct (group_rows rest) as [|[parent children] groups]; [done|].
  destruct rest as [|next rest]; [done|]. by destruct (strict_eq _ _).
Qed.

Lemma group_rows_cons (r next : obj) rest :
  group_rows (r :: next :: rest)
  = match group_rows (next :: rest) with
    | [] => [(r, [get r "job_id"])]
    | (parent, children) :: groups =>
        if strict_eq (get r "username") (get next "username")
        then (parent, get r "job_id" :: children) :: groups
        else (r, [get r "job_id"]) :: (parent, children) :: groups
    end.
Proof. reflexivity. Qed.

(** One call of the callback, on a store whose first array is the
    accumulator. *)
Lemma forEach_step_state rows i (currObj : obj) acc copies users :
  User.forEach_step rows {| User.store := acc :: copies; User.allUsers := users |} (i, currObj)
  = if match rows !! (i + 1)%nat with
       | None => true
       | Some next => negb (strict_eq (get currObj "username") (get next "username"))
       end
    then {| User.store := [] :: copies ++ [acc ++ [get currObj "job_id"]];
            User.allUsers := users ++ [object_of_row currObj (S (length copies))] |}
    else {| User.store := (acc ++ [get currObj "job_id"]) :: copies;
            User.allUsers := users |}.
Proof. unfold User.forEach_step. by destruct (match rows !! (i + 1)%nat with _ => _ end). Qed.

Lemma aggregate_loop suf : forall pre acc copies users,
  suf <> [] ->
  fold_left (User.forEach_step (pre ++ suf)) (imap (fun i => pair (length pre + i)%nat) suf)
    {| User.store := acc :: copies; User.allUsers := users |}
  = {| User.store := [] :: copies ++ (extend_first acc (group_rows suf)).*2;
       User.allUsers :=
         users ++ imap (fun j g => object_of_row g.1 (S (length copies) + j)) (group_rows suf) |}.
Proof.
  induction suf as [|r rest IH]; intros pre acc copies users Hne; [done|clear Hne].
  cbn [imap fold_left]. rewrite forEach_step_state, next_row_lookup.
  destruct rest as [|next rest].
  - cbn. by rewrite Nat.add_0_r.
  - cbn [lookup list_lookup].
    assert (forall st,
      fold_left (User.forEach_step (pre ++ r :: next :: rest))
        (imap ((fun i => pair (length pre + i)%nat) ∘ S) (next :: rest)) st
      = fold_left (User.forEach_step ((pre ++ [r]) ++ next :: rest))
          (imap (fun i => pair (length (pre ++ [r]) + i)%nat) (next :: rest)) st) as Hshift.
    { intros st. rewrite <- app_assoc. f_equal. apply imap_ext. intros i x _. simpl.
      rewrite length_app. simpl. f_equal. lia. }
    rewrite Hshift, group_rows_cons.
    pose proof (group_rows_nonempty next rest) as Hg.
    destruct (group_rows (next :: rest)) as [|[parent children] groups] eqn:Egroups; [done|].
    destruct (strict_eq (get r "username") (get next "username")); cbn [negb].
    + rewrite IH by done. simpl. by rewrite <- app_assoc.
    + rewrite IH by done. simpl.
      rewrite <- !app_assoc, length_app. simpl. rewrite !Nat.add_0_r.
      do 4 f_equal. apply imap_ext. intros j g _. simpl. f_equal. lia.
Qed.

(** The state [findAll] ends in: the emptied accumulator, then one array per
    group, the user of group [j] holding the array at [j + 1]. *)
Lemma aggregate_state rows :
  User.aggregate rows
  = {| User.store := [] :: (group_rows rows).*2;
       User.allUsers := imap (fun j g => object_of_row g.1 (S j)) (group_rows rows) |}.
Proof.
  destruct rows as [|r rest]; [reflexivity|].
  unfold User.aggregate, entries, User.init_state.
  pose proof (aggregate_loop (r :: rest) [] [] [] []) as Hloop.
  simpl app in Hloop. simpl length in Hloop. simpl alloc.
  rewrite extend_first_nil in Hloop. apply Hloop. done.
Qed.

Lemma allUsers_lookup rows j u :
  User.allUsers (User.aggregate rows) !! j = Some u ->
  exists g, group_rows rows !! j = Some g /\ u = object_of_row g.1 (S j).
Proof.
  rewrite aggregate_state. simpl. rewrite list_lookup_imap.
  destruct (group_rows rows !! j) as [g|]; [|done]. intros [= <-]. by exists g.
Qed.

Lemma returned_users_groups rows :
  User.returned_users (User.aggregate rows) = user_of_group <$> group_rows rows.
Proof.
  unfold User.returned_users. rewrite aggregate_state. simpl.
  apply list_eq. intros j. rewrite !list_lookup_fmap, list_lookup_imap.
  destruct (group_rows rows !! j) as [g|] eqn:Hg; [|done]. simpl. f_equal.
  unfold User.returned_user, user_of_group, User.jobs_of, read. simpl.
  by rewrite list_lookup_fmap, Hg.
Qed.

(** The arrays of two emitted users are two arrays, and neither is the
    accumulator. *)
Lemma mutate_other rows i j ui uj arr :
  User.allUsers (User.aggregate rows) !! i = Some ui ->
  User.allUsers (User.aggregate rows) !! j = Some uj ->
  i <> j ->
  User.uj_jobs (User.returned_user (User.mutate (User.aggregate rows) (User.jobs ui) arr) ui) = arr
  /\ User.returned_user (User.mutate (User.aggregate rows) (User.jobs ui) arr) uj
     = User.returned_user (User.aggregate rows) uj
  /\ User.returned_user (User.mutate (User.aggregate rows) User.jobs_acc arr) uj
     = User.returned_user (User.aggregate rows) uj.
Proof.
  intros Hi Hj Hne.
  destruct (allUsers_lookup _ _ _ Hi) as (gi & Hgi & ->).
  destruct (allUsers_lookup _ _ _ Hj) as (gj & Hgj & ->).
  unfold User.returned_user, User.jobs_of, User.mutate, read, write. simpl.
  rewrite aggregate_state. simpl. split; [|split].
  - rewrite list_lookup_insert_eq; [done|].
    rewrite length_fmap. by eapply lookup_lt_Some.
  - rewrite list_lookup_insert_ne by done. reflexivity.
  - reflexivity.
Qed.

(** *** Rows grouped by username *)

Lemma strict_eq_true a b : strict_eq a b = true <-> a = b.
Proof. unfold strict_eq. apply bool_decide_eq_true. Qed.

Lemma strict_eq_false a b : strict_eq a b = false <-> a <> b.
Proof. unfold strict_eq. apply bool_decide_eq_false. Qed.

Lemma grouped_by_cons key (r next : obj) rest :
  grouped_by key (r :: next :: rest) ->
  (get r key = get next key
   \/ Forall (fun later => get later key <> get r key) (next :: rest))
  /\ grouped_by key (next :: rest).
Proof. intros H. exact H. Qed.

(** The parent of a group is one of the rows. *)
Lemma group_parent_in rows : forall g, g ∈ group_rows rows -> g.1 ∈ rows.
Proof.
  induction rows as [|r rest IH]; intros g Hg; [by apply elem_of_nil in Hg|].
  destruct rest as [|next rest].
  - apply list_elem_of_singleton in Hg as ->. simpl. apply list_elem_of_here.
  - rewrite group_rows_cons in Hg.
    pose proof (group_rows_nonempty next rest) as Hne.
    destruct (group_rows (next :: rest)) as [|[parent children] groups]; [done|].
    destruct (strict_eq (get r "username") (get next "username")).
    + apply elem_of_cons in Hg as [->|Hg]; simpl; apply list_elem_of_further.
      * apply (IH (parent, children)), list_elem_of_here.
      * apply IH. by apply list_elem_of_further.
    + apply elem_of_cons in Hg as [->|Hg]; simpl.
      * apply list_elem_of_here.
      * apply list_elem_of_further. by apply IH.
Qed.

(** The first group carries the username of the first row. *)
Lemma group_head_username rest : forall (r parent : obj) children groups,
  group_rows (r :: rest) = (parent, children) :: groups ->
  get parent "username" = get r "username".
Proof.
  induction rest as [|next rest IH]; intros r parent children groups Hg.
  - by injection Hg as <- _ _.
  - rewrite group_rows_cons in Hg.
    pose proof (group_rows_nonempty next rest) as Hne.
    destruct (group_rows (next :: rest)) as [|[parent' children'] groups'] eqn:Egroups; [done|].
    destruct (strict_eq (get r "username") (get next "username")) eqn:Heq.
    + injection Hg as <- _ _. apply strict_eq_true in Heq. rewrite Heq.
      by apply (IH next parent' children' groups').
    + by injection Hg as <- _ _.
Qed.

(** Every row's username is the username of a group. *)
Lemma group_covers rows : forall r,
  r ∈ rows -> exists g, g ∈ group_rows rows /\ get g.1 "username" = get r "username".
Proof.
  induction rows as [|r0 rest IH]; intros r Hr; [by apply elem_of_nil in Hr|].
  destruct rest as [|next rest].
  - apply list_elem_of_singleton in Hr as ->. eexists. split; [apply list_elem_of_here|done].
  - rewrite group_rows_cons.
    pose proof (group_rows_nonempty next rest) as Hne.
    pose proof (group_head_username rest next) as Hhead.
    destruct (group_rows (next :: rest)) as [|[parent children] groups]; [done|].
    specialize (Hhead parent children groups eq_refl).
    destruct (strict_eq (get r0 "username") (get next "username")) eqn:Heq.
    + apply strict_eq_true in Heq.
      apply elem_of_cons in Hr as [->|Hr].
      * eexists. split; [apply list_elem_of_here|]. simpl. congruence.
      * destruct (IH r Hr) as (g & Hg & Hu).
        apply elem_of_cons in Hg as [->|Hg].
        -- eexists. split; [apply list_elem_of_here|]. exact Hu.
        -- exists g. split; [by apply list_elem_of_further|done].
    + apply elem_of_cons in Hr as [->|Hr].
      * eexists. split; [apply list_elem_of_here|done].
      * destruct (IH r Hr) as (g & Hg & Hu).
        exists g. split; [by apply list_elem_of_further|done].
Qed.

(** Under grouped rows no two groups share a username. *)
Lemma group_usernames_NoDup rows :
  grouped_by "username" rows ->
  NoDup ((fun g => get g.1 "username") <$> group_rows rows).
Proof.
  induction rows as [|r rest IH]; intros Hgr; [constructor|].
  destruct rest as [|next rest]; [apply NoDup_singleton|].
  apply grouped_by_cons in Hgr as [Hhead Hrest]. specialize (IH Hrest).
  rewrite group_rows_cons.
  pose proof (group_rows_nonempty next rest) as Hne.
  pose proof (group_parent_in (next :: rest)) as Hin.
  destruct (group_rows (next :: rest)) as [|[parent children] groups]; [done|].
  destruct (strict_eq (get r "username") (get next "username")) eqn:Heq; [exact IH|].
  apply strict_eq_false in Heq.
  destruct Hhead as [Hsame|Hlater]; [done|].
  rewrite fmap_cons. apply NoDup_cons. split; [|exact IH].
  intros Hdup. apply list_elem_of_fmap_1 in Hdup as (g & Hu & Hg).
  rewrite Forall_forall in Hlater. apply (Hlater g.1); [|done].
  by apply Hin.
Qed.

Lemma filter_none {A} (P : A -> Prop) `{!forall x, Decision (P x)} (l : list A) :
  Forall (fun x => ~ P x) l -> filter P l = [].
Proof.
  induction 1 as [|x l Hx _ IH]; [done|]. by rewrite filter_cons_False.
Qed.

(** Under grouped rows the children of a group are the child values of all
    the rows with the group's username, in order. *)
Lemma group_children rows :
  grouped_by "username" rows ->
  forall g, g ∈ group_rows rows ->
    g.2 = (fun r => get r "job_id")
          <$> filter (fun r => get r "username" = get g.1 "username") rows.
Proof.
  induction rows as [|r rest IH]; intros Hgr g Hg; [by apply elem_of_nil in Hg|].
  destruct rest as [|next rest].
  - apply list_elem_of_singleton in Hg as ->. simpl. by rewrite filter_cons_True.
  - apply grouped_by_cons in Hgr as [Hhead Hrest]. specialize (IH Hrest).
    pose proof (group_usernames_NoDup _ Hrest) as Hnd.
    pose proof (group_parent_in (next :: rest)) as Hin.
    pose proof (group_head_username rest next) as Hfirst.
    rewrite group_rows_cons in Hg.
    pose proof (group_rows_nonempty next rest) as Hne.
    destruct (group_rows (next :: rest)) as [|[parent children] groups]; [done|].
    specialize (Hfirst parent children groups eq_refl). simpl in Hfirst.
    destruct (strict_eq (get r "username") (get next "username")) eqn:Heq.
    + apply strict_eq_true in Heq.
      apply elem_of_cons in Hg as [->|Hg]; simpl.
      * rewrite filter_cons_True by congruence. simpl. f_equal.
        apply (IH (parent, children)), list_elem_of_here.
      * rewrite filter_cons_False; [by apply IH, list_elem_of_further|].
        intros Hu. rewrite fmap_cons in Hnd. apply NoDup_cons in Hnd as [Hnot _]. apply Hnot.
        apply list_elem_of_fmap. exists g. split; [simpl in *; congruence|done].
    + apply strict_eq_false in Heq. destruct Hhead as [Hsame|Hlater]; [done|].
      apply elem_of_cons in Hg as [->|Hg]; simpl.
      * rewrite filter_cons_True by done. simpl. f_equal.
        rewrite filter_none; [done|exact Hlater].
      * rewrite filter_cons_False; [by apply IH|].
        intros Hu. rewrite Forall_forall in Hlater.
        apply (Hlater g.1); [by apply Hin|done].
Qed.

End Aggregation.

(** C3, as stated, fails: the aggregator appends the child value of every
    row, a null one included, so the user without applications of the
    specification's example comes out with the one-element list [[null]],
    not with the empty list. *)
Lemma C3_null_child_counterexample :
  User.returned_users
    (User.aggregate [flat_row "a" (VNum 1); flat_row "a" (VNum 2); flat_row "b" VNull])
  = [plain_user "a" [VNum 1; VNum 2]; plain_user "b" [VNull]]
  /\ User.returned_users
       (User.aggregate [flat_row "a" (VNum 1); flat_row "a" (VNum 2); flat_row "b" VNull])
     <> [plain_user "a" [VNum 1; VNum 2]; plain_user "b" []].
Proof. split; [reflexivity|]. vm_compute. discriminate. Qed.

(** C3, amended. For every flat row sequence grouped by username the
    aggregator returns one user per maximal run of rows with one username,
    with the columns of the run's last row; no two returned users share a
    username and every row's username is a returned user's; the job list of a
    returned user is the child value of every row with its username, in
    order, null values included.  The accumulator is empty at the end.  The
    job lists are separate arrays: overwriting the array of one returned user
    changes that user's list and leaves every other returned user as it was,
    and so does overwriting the accumulator.  The rows
    [(a, 1), (a, 2), (b, null)] aggregate to the users [a] with jobs [1, 2]
    and [b] with jobs [null]. *)
Theorem C3_aggregate_grouped (rows : list obj) :
  grouped_by "username" rows ->
  User.returned_users (User.aggregate rows) = user_of_group <$> group_rows rows
  /\ NoDup (User.uj_username <$> User.returned_users (User.aggregate rows))
  /\ (forall r, r ∈ rows ->
        exists u, u ∈ User.returned_users (User.aggregate rows)
                  /\ User.uj_username u = get r "username")
  /\ (forall u, u ∈ User.returned_users (User.aggregate rows) ->
        User.uj_jobs u
        = (fun r => get r "job_id")
          <$> filter (fun r => get r "username" = User.uj_username u) rows)
  /\ Heap.read (User.store (User.aggregate rows)) User.jobs_acc = []
  /\ (forall i j ui uj arr,
        User.allUsers (User.aggregate rows) !! i = Some ui ->
        User.allUsers (User.aggregate rows) !! j = Some uj ->
        i <> j ->
        User.uj_jobs (User.returned_user (User.mutate (User.aggregate rows) (User.jobs ui) arr) ui)
        = arr
        /\ User.returned_user (User.mutate (User.aggregate rows) (User.jobs ui) arr) uj
           = User.returned_user (User.aggregate rows) uj
        /\ User.returned_user (User.mutate (User.aggregate rows) User.jobs_acc arr) uj
           = User.returned_user (User.aggregate rows) uj)
  /\ User.returned_users
       (User.aggregate [flat_row "a" (VNum 1); flat_row "a" (VNum 2); flat_row "b" VNull])
     = [plain_user "a" [VNum 1; VNum 2]; plain_user "b" [VNull]].
Proof.
  intros Hgr. split_and!.
  - apply returned_users_groups.
  - rewrite returned_users_groups, <- list_fmap_compose.
    exact (group_usernames_NoDup rows Hgr).
  - intros r Hr. destruct (group_covers rows r Hr) as (g & Hg & Hu).
    exists (user_of_group g). split; [|exact Hu].
    rewrite returned_users_groups. by apply list_elem_of_fmap_2.
  - intros u Hu. rewrite returned_users_groups in Hu.
    apply list_elem_of_fmap_1 in Hu as (g & -> & Hg). simpl.
    by apply group_children.
  - by rewrite aggregate_state.
  - intros i j ui uj arr. apply mutate_other.
  - reflexivity.
Qed.

Lemma C3_aggregate_grouped_witness :
  NoDup (User.uj_username
         <$> User.returned_users
               (User.aggregate [flat_row "a" (VNum 1); flat_row "a" (VNum 2); flat_row "b" VNull]))
  /\ forall u,
       u ∈ User.returned_users
             (User.aggregate [flat_row "a" (VNum 1); flat_row "a" (VNum 2); flat_row "b" VNull]) ->
       User.uj_jobs u
       = (fun r => get r "job_id")
         <$> filter (fun r => get r "username" = User.uj_username u)
               [flat_row "a" (VNum 1); flat_row "a" (VNum 2); flat_row "b" VNull].
Proof.
  destruct (C3_aggregate_grouped [flat_row "a" (VNum 1); flat_row "a" (VNum 2); flat_row "b" VNull])
    as (_ & Hnd & _ & Hjobs & _).
  - simpl. split; [left; reflexivity|]. split; [|done].
    right. repeat constructor. discriminate.
  - split; [exact Hnd|exact Hjobs].
Defined.

(** * Further properties *)

(** ** Row aggregation: what the grouping keeps *)

Section AggregationMore.

Implicit Types (rows rest : list obj) (groups : list (obj * list value)).

Lemma group_children_concat rows :
  concat ((group_rows rows).*2) = (fun r => get r "job_id") <$> rows.
Proof.
  induction rows as [|r rest IH]; [done|].
  destruct rest as [|next rest]; [done|].
  rewrite group_rows_cons.
  pose proof (group_rows_nonempty next rest) as Hne.
  destruct (group_rows (next :: rest)) as [|[parent children] groups]; [done|].
  rewrite fmap_cons, <- IH.
  by destruct (strict_eq (get r "username") (get next "username")).
Qed.

Lemma group_children_nonempty rows : Forall (fun g => g.2 <> []) (group_rows rows).
Proof.
  induction rows as [|r rest IH]; [constructor|].
  destruct rest as [|next rest]; [by repeat constructor|].
  rewrite group_rows_cons.
  pose proof (group_rows_nonempty next rest) as Hne.
  destruct (group_rows (next :: rest)) as [|[parent children] groups]; [done|].
  pose proof IH as Hall. apply Forall_cons in Hall as [_ Htail].
  destruct (strict_eq (get r "username") (get next "username")).
  - by constructor.
  - by constructor.
Qed.

Lemma group_rows_length rows : length (group_rows rows) <= length rows.
Proof.
  induction rows as [|r rest IH]; [done|].
  destruct rest as [|next rest]; [simpl; lia|].
  rewrite group_rows_cons.
  pose proof (group_rows_nonempty next rest) as Hne.
  destruct (group_rows (next :: rest)) as [|[parent children] groups]; [done|].
  destruct (strict_eq (get r "username") (get next "username")); simpl in *; lia.
Qed.

Lemma returned_jobs_groups rows :
  User.uj_jobs <$> User.returned_users (User.aggregate rows) = (group_rows rows).*2.
Proof. rewrite returned_users_groups, <- list_fmap_compose. by apply list_fmap_ext. Qed.

(** Rows of one user: one group, with every child value. *)
Lemma group_rows_one_user (u : value) rows : forall r : obj,
  Forall (fun r' => get r' "username" = u) (r :: rows) ->
  exists parent,
    get parent "username" = u
    /\ group_rows (r :: rows) = [(parent, (fun r' => get r' "job_id") <$> (r :: rows))].
Proof.
  induction rows as [|next rest IH]; intros r Hall.
  - exists r. split; [|done]. by apply Forall_cons in Hall as [Hr _].
  - rewrite group_rows_cons.
    apply Forall_cons in Hall as [Hr Hrest].
    destruct (IH next Hrest) as (parent & Hparent & ->).
    apply Forall_cons in Hrest as [Hnext _].
    assert (strict_eq (get r "username") (get next "username") = true) as ->.
    { apply strict_eq_true. congruence. }
    by exists parent.
Qed.

End AggregationMore.

(** X1. Whatever the rows (grouped or not), the job lists of the users
    [findAll] returns, put end to end, are the [job_id] column of the rows: no
    child value is lost, repeated or moved. *)
Theorem X1_aggregate_keeps_children (rows : list obj) :
  concat (User.uj_jobs <$> User.returned_users (User.aggregate rows))
  = (fun r => get r "job_id") <$> rows.
Proof. rewrite returned_jobs_groups. apply group_children_concat. Qed.

(** X2. [findAll] never returns a user with an empty job list (a user with no
    application carries the null child of its one row), never more users
    than there are rows, and no user at all only when there is no row. *)
Theorem X2_aggregate_no_empty_list (rows : list obj) :
  Forall (fun u => User.uj_jobs u <> []) (User.returned_users (User.aggregate rows))
  /\ length (User.returned_users (User.aggregate rows)) <= length rows
  /\ (User.returned_users (User.aggregate rows) = [] <-> rows = []).
Proof.
  rewrite returned_users_groups. split_and!.
  - apply Forall_fmap. eapply Forall_impl; [apply group_children_nonempty|]. by intros [p c].
  - rewrite length_fmap. apply group_rows_length.
  - split.
    + intros Hnil. apply fmap_nil_inv in Hnil.
      destruct rows as [|r rest]; [done|]. by apply group_rows_nonempty in Hnil.
    + by intros ->.
Qed.

(** X3. [get] and [findAll] agree on the rows of one user: when the engine
    answers the [get] statement with at least one row, all of the requested
    username, [get] returns that user with the [job_id] of every row, and
    [findAll] over the same rows returns exactly one user, with the same
    username and the same job list. *)
Theorem X3_get_agrees_with_findAll (db : database) (username : value) (rows : list obj) :
  query db (UserOps.get_statement username) = rows ->
  rows <> [] ->
  Forall (fun r => get r "username" = username) rows ->
  exists found listed,
    UserOps.get db username = Ok found
    /\ User.returned_users (User.aggregate rows) = [listed]
    /\ User.uj_username found = User.uj_username listed
    /\ User.uj_jobs found = User.uj_jobs listed
    /\ User.uj_jobs found = (fun r => get r "job_id") <$> rows.
Proof.
  intros Hrows Hne Hall. destruct rows as [|r rest]; [done|].
  destruct (group_rows_one_user username rest r Hall) as (parent & Hparent & Hgroups).
  eexists _, _. split_and!.
  - unfold UserOps.get. rewrite Hrows. reflexivity.
  - rewrite returned_users_groups, Hgroups. reflexivity.
  - simpl. by rewrite Hparent.
  - reflexivity.
  - reflexivity.
Qed.

Lemma X3_get_agrees_with_findAll_witness :
  exists found listed,
    UserOps.get (fun _ _ => [flat_row "a" (VNum 1); flat_row "a" (VNum 2)]) (VStr "a") = Ok found
    /\ User.returned_users (User.aggregate [flat_row "a" (VNum 1); flat_row "a" (VNum 2)])
       = [listed]
    /\ User.uj_username found = User.uj_username listed
    /\ User.uj_jobs found = User.uj_jobs listed
    /\ User.uj_jobs found
       = (fun r => get r "job_id") <$> [flat_row "a" (VNum 1); flat_row "a" (VNum 2)].
Proof.
  apply (X3_get_agrees_with_findAll
           (fun _ _ => [flat_row "a" (VNum 1); flat_row "a" (VNum 2)]) (VStr "a")).
  - reflexivity.
  - discriminate.
  - repeat constructor.
Defined.

(** ** Authentication and authorization *)

Section Passwords.

Lemma delete_prop_keys (o : obj) key : key ∉ Object_keys (delete_prop o key).
Proof.
  unfold Object_keys, delete_prop. intros Hin.
  apply list_elem_of_fmap_1 in Hin as ([k v] & -> & Hkv).
  apply list_elem_of_filter in Hkv as [Hk _]. simpl in Hk.
  by rewrite String.eqb_refl in Hk.
Qed.

Lemma delete_prop_get (o : obj) key : get (delete_prop o key) key = VUndefined.
Proof. apply get_absent, delete_prop_keys. Qed.

End Passwords.

(** X4. No password leaves the model.  Whatever the engine and the password
    library answer, the user [authenticate] returns is the found row without
    its [password] property, and it is returned only when the library's
    answer is exactly [true]; an unknown username and a wrong password end in
    the same [UnauthorizedError] message.  The row [update] returns has no
    [password] property either. *)
Theorem X4_no_password_returned (bcrypt_compare : value -> value -> result value)
    (bcrypt_hash : value -> result value) (db : database) (username password : value)
    (data : obj) :
  match UserOps.authenticate bcrypt_compare db username password with
  | UserOps.Authenticated user =>
      get user "password" = VUndefined
      /\ ("password" ∉ Object_keys user)
      /\ exists row,
           query db (UserOps.authenticate_statement username) !! 0%nat = Some row
           /\ bcrypt_compare password (get row "password") = Ok (VBool true)
           /\ user = delete_prop row "password"
  | UserOps.UnauthorizedError msg => msg = "Invalid username/password"
  | UserOps.Rejected e =>
      exists row,
        query db (UserOps.authenticate_statement username) !! 0%nat = Some row
        /\ bcrypt_compare password (get row "password") = Throw e
  end
  /\ match User.update bcrypt_hash db username data with
     | Ok user => get user "password" = VUndefined /\ ("password" ∉ Object_keys user)
     | Throw _ => True
     end.
Proof.
  split.
  - unfold UserOps.authenticate.
    destruct (query db (UserOps.authenticate_statement username) !! 0%nat) as [row|]; [|done].
    destruct (bcrypt_compare password (get row "password")) as [isValid|e] eqn:Hcmp.
    + destruct (strict_eq isValid (VBool true)) eqn:Hvalid; [|done].
      apply strict_eq_true in Hvalid as ->.
      split; [apply delete_prop_get|]. split; [apply delete_prop_keys|]. by exists row.
    + by exists row.
  - unfold User.update.
    destruct (User.hash_password bcrypt_hash data) as [data'|]; [|done].
    destruct (Sql.sqlForPartialUpdate data' User.jsToSql) as [p|]; [|done].
    destruct (db _ _ !! 0%nat) as [user|]; [|done].
    split; [apply delete_prop_get|apply delete_prop_keys].
Qed.

Lemma strict_eq_bool (b : bool) : strict_eq (VBool b) (VBool true) = b.
Proof. by destruct b. Qed.

(** X5. The three guards are nested.  Whoever [ensureIsAdmin] or
    [ensureCorrectUser] lets through is logged in; [ensureIsAdmin] lets
    through exactly the payloads whose [isAdmin] is truthy (not only [true]);
    [ensureCorrectUser] lets through exactly the payloads of the requested
    username and those whose [isAdmin] is [true]; so whoever reaches another
    user's route through [ensureCorrectUser] passes [ensureIsAdmin] too. *)
Theorem X5_guards_nested (user : option obj) (param : value) :
  (Auth.ensureIsAdmin user = Auth.Next -> Auth.ensureLoggedIn user = Auth.Next)
  /\ (Auth.ensureCorrectUser user param = Auth.Next -> Auth.ensureLoggedIn user = Auth.Next)
  /\ (Auth.ensureIsAdmin user = Auth.Next
      <-> exists payload, user = Some payload /\ truthy (get payload "isAdmin") = true)
  /\ (Auth.ensureCorrectUser user param = Auth.Next
      <-> exists payload,
            user = Some payload
            /\ (get payload "username" = param \/ get payload "isAdmin" = VBool true))
  /\ (forall payload,
        user = Some payload -> get payload "username" <> param ->
        Auth.ensureCorrectUser user param = Auth.Next -> Auth.ensureIsAdmin user = Auth.Next).
Proof.
  assert (Auth.ensureIsAdmin user = Auth.Next
          <-> exists payload, user = Some payload /\ truthy (get payload "isAdmin") = true)
    as Hadmin.
  { destruct user as [payload|]; simpl.
    - rewrite strict_eq_bool. destruct (truthy (get payload "isAdmin")) eqn:Hflag; simpl.
      + split; [by exists payload|done].
      + split; [done|]. intros (p & [= <-] & Hp). congruence.
    - split; [done|]. by intros (p & Hp & _). }
  assert (Auth.ensureCorrectUser user param = Auth.Next
          <-> exists payload,
                user = Some payload
                /\ (get payload "username" = param \/ get payload "isAdmin" = VBool true))
    as Hcorrect.
  { destruct user as [payload|]; simpl.
    - destruct (strict_eq (get payload "username") param) eqn:Hname;
        destruct (strict_eq (get payload "isAdmin") (VBool true)) eqn:Hflag; simpl;
        rewrite ?strict_eq_true, ?strict_eq_false in *.
      + split; [|done]. exists payload. by split; [|left].
      + split; [|done]. exists payload. by split; [|left].
      + split; [|done]. exists payload. by split; [|right].
      + split; [done|]. intros (p & [= <-] & [Hp|Hp]); congruence.
    - split; [done|]. by intros (p & Hp & _). }
  split_and!; try done.
  - by destruct user.
  - by destruct user.
  - intros payload -> Hother Hpass. apply Hadmin. exists payload. split; [done|].
    apply Hcorrect in Hpass as (p & [= <-] & [Hp|Hp]); [done|]. by rewrite Hp.
Qed.

(** ** Statements issued by [applyForJob] and [create] *)

Section Issued.

Lemma first_row_none (rows : list obj) : rows !! 0%nat = None <-> rows = [].
Proof. by destruct rows. Qed.

Lemma first_row_some (rows : list obj) : is_Some (rows !! 0%nat) <-> rows <> [].
Proof. destruct rows; simpl; split; (done || by intros [? ?] || eauto). Qed.

End Issued.

(** X6. [applyForJob] inserts an application only after its three checks:
    the INSERT is among the statements it issues exactly when it returns
    [{applied: jobId}], and exactly when the user check and the job check
    each returned a row and the duplicate check returned none.  A missing
    user ends it after the first statement.  Every statement it issues binds
    each of its placeholders. *)
Theorem X6_applyForJob_inserts_after_checks (db : database) (username jobId : value) :
  ((UserOps.applyForJob db username jobId).1 = Ok [("applied", jobId)]
   <-> UserOps.insert_statement username jobId ∈ (UserOps.applyForJob db username jobId).2)
  /\ (UserOps.insert_statement username jobId ∈ (UserOps.applyForJob db username jobId).2
      <-> query db (UserOps.userCheck_statement username) <> []
          /\ query db (UserOps.jobCheck_statement jobId) <> []
          /\ query db (UserOps.duplicateCheck_statement username jobId) = [])
  /\ (query db (UserOps.userCheck_statement username) = [] ->
      UserOps.applyForJob db username jobId
      = (Throw (BadRequestError "User not found"), [UserOps.userCheck_statement username]))
  /\ Forall (fun s => Placeholder.aligned (sql s) (default [] (args s)))
       (UserOps.applyForJob db username jobId).2.
Proof.
  unfold UserOps.applyForJob.
  destruct (query db (UserOps.userCheck_statement username)) as [|u us] eqn:Huser;
    [|destruct (query db (UserOps.jobCheck_statement jobId)) as [|j js] eqn:Hjob;
      [|destruct (query db (UserOps.duplicateCheck_statement username jobId))
          as [|d ds] eqn:Hdup]];
    simpl; (split_and!; [| | |by repeat constructor]).
  all: try (split; [discriminate|]).
  all: try (intros Hin; repeat (apply elem_of_cons in Hin as [Hin|Hin]; [discriminate|]);
            by apply elem_of_nil in Hin).
  all: try (split;
            [intros Hin; repeat (apply elem_of_cons in Hin as [Hin|Hin]; [discriminate|]);
             by apply elem_of_nil in Hin
            |by intros (? & ? & ?)]).
  all: try done.
  - split; [intros _|done]. do 3 apply list_elem_of_further. apply list_elem_of_here.
  - split; [done|]. intros _. do 3 apply list_elem_of_further. apply list_elem_of_here.
Qed.

(** X7. [create] issues its INSERT exactly when the duplicate check returned
    no row; a duplicate ends it in [BadRequestError] naming the handle, and
    otherwise it returns the first row of the INSERT, or nothing when the
    engine returned none (it never throws [NotFoundError]).  The INSERT lists
    five columns and one placeholder for each, and binds each column to the
    data's property for it: [handle], [name] and [description] to the
    properties of those names, [num_employees] to [numEmployees] and
    [logo_url] to [logoUrl].  Every statement it issues binds each of its
    placeholders. *)
Theorem X7_create_inserts_unless_duplicate (db : database) (data : obj) :
  (CompanyCreate.insert_statement data ∈ (CompanyCreate.create db data).2
   <-> query db (CompanyCreate.duplicateCheck_statement (get data "handle")) = [])
  /\ (CompanyCreate.create db data).1
     = match query db (CompanyCreate.duplicateCheck_statement (get data "handle")) with
       | [] => Ok (query db (CompanyCreate.insert_statement data) !! 0%nat)
       | _ :: _ =>
           Throw (BadRequestError ("Duplicate company: " +:+ to_string (get data "handle")))
       end
  /\ (args (CompanyCreate.insert_statement data)
      = Some [get data "handle"; get data "name"; get data "description";
              get data "numEmployees"; get data "logoUrl"]
      /\ bound_columns (CompanyCreate.insert_statement data)
         = [("handle", get data "handle"); ("name", get data "name");
            ("description", get data "description");
            ("num_employees", get data "numEmployees");
            ("logo_url", get data "logoUrl")])
  /\ Forall (fun s => Placeholder.aligned (sql s) (default [] (args s)))
       (CompanyCreate.create db data).2.
Proof.
  unfold CompanyCreate.create.
  destruct (query db (CompanyCreate.duplicateCheck_statement (get data "handle")))
    as [|d ds] eqn:Hdup; cbn [fst snd];
    (split_and!; [| | |vm_compute; reflexivity|by repeat constructor]); try done.
  - split; [done|]. intros _. apply list_elem_of_further, list_elem_of_here.
  - split; [|done]. intros Hin.
    apply elem_of_cons in Hin as [Hin|Hin]; [discriminate|]. by apply elem_of_nil in Hin.
Qed.

(** ** The jobs filter fragment, entry by entry *)

Section JobFragment.

Import Placeholder.
Implicit Types (filters : obj) (pieces : list piece).

Lemma loop_state_eta (st : Job.loop_state) :
  {| Job.sqlWhereCondArr := Job.sqlWhereCondArr st ++ []; Job.values := Job.values st ++ [] |} = st.
Proof. destruct st. simpl. by rewrite !app_nil_r. Qed.

(** One iteration of the loop, read as the pieces and the parameters of its
    entry. *)
Lemma job_where_step_pieces filters st idx i key v :
  NoDup (Object_keys filters) ->
  filters !! i = Some (key, v) ->
  Job.where_step (Object_keys filters) (Object_values filters) st (idx, key)
  = {| Job.sqlWhereCondArr := Job.sqlWhereCondArr st ++ (render <$> job_pieces idx (key, v));
       Job.values := Job.values st ++ job_params (key, v) |}.
Proof.
  intros Hnd Hi. unfold Job.where_step. rewrite (job_entry_value _ _ _ _ Hnd Hi).
  unfold job_pieces, job_params, parametric. simpl.
  destruct (String.eqb_spec key "titleLike") as [->|Htitle]; [reflexivity|].
  destruct (String.eqb_spec key "minSalary") as [->|Hsalary]; [reflexivity|].
  destruct (String.eqb_spec key "hasEquity") as [->|Hequity]; simpl.
  - destruct (truthy v); simpl; [by rewrite app_nil_r|by rewrite loop_state_eta].
  - by rewrite loop_state_eta.
Qed.

Lemma job_loop_prefix_pieces filters n :
  NoDup (Object_keys filters) ->
  n <= length filters ->
  Job.loop_prefix n (Object_keys filters) (Object_values filters)
  = {| Job.sqlWhereCondArr := render <$> concat (imap job_pieces (take n filters));
       Job.values := concat (job_params <$> take n filters) |}.
Proof.
  intros Hnd. induction n as [|n IH]; intros Hn; [by rewrite take_0|].
  destruct (lookup_lt_is_Some_2 filters n) as [[key v] Hkv]; [lia|].
  assert (Object_keys filters !! n = Some key) as Hkey.
  { unfold Object_keys. by rewrite list_lookup_fmap, Hkv. }
  rewrite (job_loop_prefix_S _ _ _ _ Hkey), IH by lia.
  rewrite (job_where_step_pieces _ _ _ _ _ _ Hnd Hkv). simpl.
  rewrite (take_S_r _ _ _ Hkv), imap_app, fmap_app, !concat_app, fmap_app. simpl.
  rewrite length_take_le by lia. by rewrite Nat.add_0_r, !app_nil_r.
Qed.

(** The loop's result on a spec of distinct keys. *)
Lemma job_where_loop_pieces filters :
  NoDup (Object_keys filters) ->
  Job.where_loop (Object_keys filters) (Object_values filters)
  = {| Job.sqlWhereCondArr := render <$> concat (imap job_pieces filters);
       Job.values := concat (job_params <$> filters) |}.
Proof.
  intros Hnd. rewrite <- job_loop_prefix_all.
  unfold Object_keys at 1. rewrite length_fmap.
  rewrite job_loop_prefix_pieces by done. by rewrite firstn_all.
Qed.

(** Scanning pieces joined by an inert separator. *)
Lemma scan_pieces (sep t : string) pieces :
  Forall piece_ok pieces ->
  sep <> EmptyString -> ends_number sep = true -> inert sep = true ->
  ends_number t = true ->
  scan Plain (join sep (render <$> pieces) +:+ t) = omap number_of pieces ++ scan Plain t.
Proof.
  intros Hok Hsep Hsep_end Hsep_inert Ht.
  assert (ends_number (sep +:+ t) = true) as Hsept by (by apply ends_number_app).
  induction Hok as [|p rest Hp Hrest IH]; [done|].
  assert (forall t', ends_number t' = true ->
            scan Plain (render p +:+ t')
            = match number_of p with Some n => [n] | None => [] end ++ scan Plain t') as Hitem.
  { intros t' Ht'. destruct p as [body n|text]; simpl in *.
    - destruct Hp as [Hn Hbody]. by rewrite string_app_assoc, Hbody, scan_ends_number.
    - apply Hp. }
  destruct rest as [|p' rest].
  - simpl. rewrite Hitem by done. by destruct (number_of p).
  - change (join sep (render <$> p :: p' :: rest))
      with (render p +:+ sep +:+ join sep (render <$> p' :: rest)).
    rewrite !string_app_assoc, Hitem.
    + rewrite scan_inert by done. rewrite IH. cbn [omap list_omap].
      destruct (number_of p); by rewrite ?app_assoc.
    + destruct sep; [done|exact Hsep_end].
Qed.

Lemma job_pieces_ok idx kv : Forall piece_ok (job_pieces idx kv).
Proof.
  unfold job_pieces.
  destruct (String.eqb kv.1 "titleLike").
  { repeat constructor; [lia|]. intros t.
    change "title ILIKE $" with ("title ILIKE " +:+ "$"). apply scan_inert_dollar; [done|lia]. }
  destruct (String.eqb kv.1 "minSalary").
  { repeat constructor; [lia|]. intros t.
    change "salary>=$" with ("salary>=" +:+ "$"). apply scan_inert_dollar; [done|lia]. }
  destruct (String.eqb kv.1 "hasEquity"); [|constructor].
  destruct (truthy kv.2); [|constructor]. repeat constructor.
Qed.

Lemma job_pieces_all_ok filters : Forall piece_ok (concat (imap job_pieces filters)).
Proof.
  apply Forall_concat, Forall_forall. intros pieces Hin.
  apply elem_of_lookup_imap_1 in Hin as (i & kv & -> & _). apply job_pieces_ok.
Qed.

(** The numbers of the pieces are the ranks of the parametric entries. *)
Lemma job_pieces_numbers filters :
  omap number_of (concat (imap job_pieces filters))
  = (fun e => (e.1 + 1)%nat) <$> filter (fun e => parametric e.2.1 = true) (entries filters).
Proof.
  induction filters as [|kv filters IH] using rev_ind; [done|].
  unfold entries in *.
  rewrite !imap_app, concat_app, omap_app, filter_app, fmap_app, IH. f_equal.
  simpl. rewrite Nat.add_0_r, app_nil_r.
  unfold job_pieces, parametric.
  destruct (String.eqb kv.1 "titleLike") eqn:Htitle.
  { rewrite filter_cons_True by (simpl; by rewrite Htitle). reflexivity. }
  destruct (String.eqb kv.1 "minSalary") eqn:Hsalary.
  { rewrite filter_cons_True by (simpl; by rewrite Htitle, Hsalary). reflexivity. }
  rewrite filter_cons_False by (simpl; by rewrite Htitle, Hsalary).
  destruct (String.eqb kv.1 "hasEquity"); [|done]. by destruct (truthy kv.2).
Qed.

Lemma job_params_values filters :
  concat (job_params <$> filters) = snd <$> filter (fun kv => parametric kv.1 = true) filters.
Proof.
  induction filters as [|kv filters IH]; [done|].
  rewrite fmap_cons. simpl. rewrite IH. unfold job_params.
  destruct (parametric kv.1) eqn:Hpar.
  - by rewrite filter_cons_True.
  - rewrite filter_cons_False; [done|]. by rewrite Hpar.
Qed.

End JobFragment.

Section JobStatement.

Import Placeholder.
Implicit Types (filters : obj).

Lemma entries_snoc {A} (l : list A) x : entries (l ++ [x]) = entries l ++ [(length l, x)].
Proof. unfold entries. rewrite imap_app. simpl. by rewrite Nat.add_0_r. Qed.

Lemma job_build_nonempty filters :
  filters <> [] ->
  Job.build (Filters filters)
  = {| Job.sqlWhereCondStr :=
         "WHERE " +:+ join " AND "
           (Job.sqlWhereCondArr (Job.where_loop (Object_keys filters) (Object_values filters)));
       Job.query_values :=
         Job.values (Job.where_loop (Object_keys filters) (Object_values filters)) |}.
Proof. by destruct filters. Qed.

(** The placeholders and the parameters of the jobs list statement. *)
Lemma job_statement_scan (f : filtersObj) :
  NoDup (Object_keys (filter_spec f)) ->
  placeholders (sql (Job.findAll_statement f))
  = (fun e => (e.1 + 1)%nat)
    <$> filter (fun e => parametric e.2.1 = true) (entries (filter_spec f))
  /\ Job.query_values (Job.build f)
     = snd <$> filter (fun kv => parametric kv.1 = true) (filter_spec f).
Proof.
  intros Hnd. destruct f as [|filters]; [by split|]. simpl in Hnd. simpl filter_spec.
  destruct (decide (filters = [])) as [->|Hne]; [by split|].
  unfold Job.findAll_statement, Job.query. simpl sql.
  rewrite (job_build_nonempty _ Hne), (job_where_loop_pieces _ Hnd). simpl.
  split; [|apply job_params_values].
  unfold placeholders.
  rewrite (scan_inert Job.select_from) by reflexivity.
  rewrite string_app_assoc, (scan_inert "WHERE ") by reflexivity.
  rewrite (scan_pieces " AND " Job.order_by) by (done || apply job_pieces_all_ok).
  change (scan Plain Job.order_by) with (@nil nat).
  by rewrite app_nil_r, job_pieces_numbers.
Qed.

Lemma filter_entries_length {A} (P : A -> Prop) `{!forall x, Decision (P x)} (l : list A) :
  length (filter (fun e => P e.2) (entries l)) = length (filter P l).
Proof.
  induction l as [|x l IH] using rev_ind; [done|].
  rewrite entries_snoc, !filter_app, !length_app, IH. f_equal.
  rewrite !filter_cons, !filter_nil. simpl. by destruct (decide (P x)).
Qed.

(** Ranks of the entries that satisfy [P], counted from [start]: they are
    consecutive from [start + 1] exactly when those entries come first. *)
Lemma ranks_from_ge {A} (P : A -> Prop) `{!forall x, Decision (P x)} (l : list A) start :
  Forall (fun n => start + 1 <= n)
    ((fun e : nat * A => (e.1 + 1)%nat)
     <$> filter (fun e => P e.2) (imap (fun j => pair (start + j)%nat) l)).
Proof.
  apply Forall_fmap, Forall_forall. intros [n x] Hin. simpl.
  apply list_elem_of_filter in Hin as [_ Hin].
  apply elem_of_lookup_imap_1 in Hin as (j & y & [= -> _] & _). lia.
Qed.

Lemma ranks_length {A} (P : A -> Prop) `{!forall x, Decision (P x)} (l : list A) : forall start,
  length (filter (fun e => P e.2) (imap (fun j => pair (start + j)%nat) l))
  = length (filter P l).
Proof.
  induction l as [|x l IH]; intros start; [done|].
  cbn [imap]. rewrite !filter_cons. simpl.
  rewrite (imap_ext _ (fun j => pair (S start + j)%nat)) by (intros; simpl; f_equal; lia).
  destruct (decide (P x)); cbn [length]; [f_equal|]; apply IH.
Qed.

Lemma ranks_consecutive_iff {A} (P : A -> Prop) `{!forall x, Decision (P x)} (l : list A) :
  forall start,
    (fun e : nat * A => (e.1 + 1)%nat)
    <$> filter (fun e => P e.2) (imap (fun j => pair (start + j)%nat) l)
    = seq (start + 1) (length (filter P l))
    <-> exists front back, l = front ++ back /\ Forall P front /\ Forall (fun x => ~ P x) back.
Proof.
  induction l as [|x l IH]; intros start.
  - split; [|done]. intros _. by exists [], [].
  - cbn [imap]. rewrite !filter_cons. simpl.
    rewrite (imap_ext _ (fun j => pair (S start + j)%nat)) by (intros; simpl; f_equal; lia).
    destruct (decide (P x)) as [Hx|Hx].
    + rewrite fmap_cons. cbn [length fst]. rewrite <- cons_seq.
      replace (start + 0 + 1)%nat with (start + 1)%nat by lia.
      replace (S (start + 1)) with (S start + 1)%nat by lia.
      split.
      * intros Heq. injection Heq as Heq.
        apply (IH (S start)) in Heq as (front & back & -> & Hfront & Hback).
        exists (x :: front), back. by split_and!; [|constructor|].
      * intros (front & back & Heq & Hfront & Hback).
        destruct front as [|y front].
        { simpl in Heq. subst back. by apply Forall_cons in Hback as [Hnot _]. }
        injection Heq as <- ->. apply Forall_cons in Hfront as [_ Hfront].
        f_equal. apply (IH (S start)). by exists front, back.
    + pose proof (ranks_from_ge P l (S start)) as Hge.
      pose proof (ranks_length P l (S start)) as Hlen.
      split.
      * intros Heq. exists [], (x :: l). split; [done|]. split; [constructor|].
        constructor; [done|].
        destruct (filter P l) as [|y ys] eqn:Hfilter.
        { apply Forall_forall. intros z Hz Pz.
          assert (z ∈ filter P l) as Hzf by (by apply list_elem_of_filter).
          rewrite Hfilter in Hzf. by apply elem_of_nil in Hzf. }
        cbn [length] in Heq. rewrite <- cons_seq in Heq. rewrite Heq in Hge.
        apply Forall_cons in Hge as [Hge _]. lia.
      * intros (front & back & Heq & Hfront & Hback).
        destruct front as [|y front].
        { simpl in Heq. subst back. apply Forall_cons in Hback as [_ Hback].
          rewrite (filter_none P l Hback) in *. cbn [length] in Hlen.
          by apply nil_length_inv in Hlen as ->. }
        injection Heq as <- ->. by apply Forall_cons in Hfront as [Hfront _].
Qed.

Lemma job_pieces_none filters :
  Forall (fun kv => parametric kv.1 = false
                    /\ (kv.1 = "hasEquity" -> truthy kv.2 = false)) filters ->
  concat (imap job_pieces filters) = [] /\ concat (job_params <$> filters) = [].
Proof.
  intros Hall. split.
  - induction filters as [|kv filters IH] using rev_ind; [done|].
    apply Forall_app in Hall as [Hall Hkv]. apply Forall_singleton in Hkv as [Hpar Hequity].
    rewrite imap_app, concat_app, (IH Hall). simpl. rewrite app_nil_r.
    unfold job_pieces. unfold parametric in Hpar. apply orb_false_iff in Hpar as [-> ->].
    destruct (String.eqb_spec kv.1 "hasEquity") as [Heq|]; [|done]. by rewrite (Hequity Heq).
  - induction Hall as [|kv filters [Hpar _] _ IH]; [done|].
    rewrite fmap_cons. simpl. unfold job_params at 1. by rewrite Hpar.
Qed.

End JobStatement.



(** X8. In the jobs list statement built from a spec of distinct keys, the
    placeholders are, in order, the numbers [i + 1] of the positions [i] of
    the [titleLike] and [minSalary] entries in the spec, and the parameters
    are the values of those entries, in the same order: there are always as
    many placeholders as parameters, whatever the other entries. *)
Theorem X8_jobs_placeholders_by_position (f : filtersObj) :
  NoDup (Object_keys (filter_spec f)) ->
  Placeholder.placeholders (sql (Job.findAll_statement f))
  = (fun e => (e.1 + 1)%nat)
    <$> filter (fun e => parametric e.2.1 = true) (entries (filter_spec f))
  /\ args (Job.findAll_statement f)
     = Some (snd <$> filter (fun kv => parametric kv.1 = true) (filter_spec f))
  /\ length (Placeholder.placeholders (sql (Job.findAll_statement f)))
     = length (default [] (args (Job.findAll_statement f))).
Proof.
  intros Hnd. destruct (job_statement_scan f Hnd) as [Hscan Hvalues].
  split; [exact Hscan|]. rewrite Hscan.
  change (args (Job.findAll_statement f)) with (Some (Job.query_values (Job.build f))).
  rewrite Hvalues. split; [done|].
  change (default [] (Some ?x)) with x. rewrite !length_fmap.
  exact (filter_entries_length (fun kv : string * value => parametric kv.1 = true)
           (filter_spec f)).
Qed.

Lemma X8_jobs_placeholders_by_position_witness :
  Placeholder.placeholders
    (sql (Job.findAll_statement (Filters [("hasEquity", VBool true); ("minSalary", VNum 5)])))
  = (fun e => (e.1 + 1)%nat)
    <$> filter (fun e => parametric e.2.1 = true)
          (entries [("hasEquity", VBool true); ("minSalary", VNum 5)])
  /\ args (Job.findAll_statement (Filters [("hasEquity", VBool true); ("minSalary", VNum 5)]))
     = Some (snd <$> filter (fun kv => parametric kv.1 = true)
                       [("hasEquity", VBool true); ("minSalary", VNum 5)])
  /\ length (Placeholder.placeholders
               (sql (Job.findAll_statement
                       (Filters [("hasEquity", VBool true); ("minSalary", VNum 5)]))))
     = length (default []
                 (args (Job.findAll_statement
                          (Filters [("hasEquity", VBool true); ("minSalary", VNum 5)])))).
Proof.
  apply (X8_jobs_placeholders_by_position
           (Filters [("hasEquity", VBool true); ("minSalary", VNum 5)])).
  compute_done.
Defined.

(** X9. For a jobs filter spec of distinct keys, the placeholders of the
    list statement are [$1 .. $n] in order, [n] the number of parameters,
    exactly when every [titleLike] and [minSalary] entry of the spec comes
    before every other entry. *)
Theorem X9_jobs_aligned_iff_parametric_first (filters : obj) :
  NoDup (Object_keys filters) ->
  Placeholder.aligned (sql (Job.findAll_statement (Filters filters)))
    (Job.query_values (Job.build (Filters filters)))
  <-> exists front back,
        filters = front ++ back
        /\ Forall (fun kv => parametric kv.1 = true) front
        /\ Forall (fun kv => parametric kv.1 <> true) back.
Proof.
  intros Hnd. destruct (job_statement_scan (Filters filters) Hnd) as [Hscan Hvalues].
  unfold Placeholder.aligned. rewrite Hscan, Hvalues. simpl filter_spec.
  rewrite length_fmap.
  exact (ranks_consecutive_iff (fun kv : string * value => parametric kv.1 = true) filters 0).
Qed.

Lemma X9_jobs_aligned_iff_parametric_first_witness :
  Placeholder.aligned
    (sql (Job.findAll_statement (Filters [("minSalary", VNum 5); ("hasEquity", VBool true)])))
    (Job.query_values (Job.build (Filters [("minSalary", VNum 5); ("hasEquity", VBool true)])))
  <-> exists front back,
        [("minSalary", VNum 5); ("hasEquity", VBool true)] = front ++ back
        /\ Forall (fun kv => parametric kv.1 = true) front
        /\ Forall (fun kv => parametric kv.1 <> true) back.
Proof.
  apply (X9_jobs_aligned_iff_parametric_first [("minSalary", VNum 5); ("hasEquity", VBool true)]).
  compute_done.
Defined.

(** X10. A non-empty jobs filter spec none of whose entries emits a predicate
    (a falsy [hasEquity], for one) leaves the statement with a bare [WHERE]:
    the fragment is [WHERE] followed by nothing, right before ORDER BY. *)
Theorem X10_jobs_bare_where (filters : obj) :
  filters <> [] ->
  NoDup (Object_keys filters) ->
  Forall (fun kv => parametric kv.1 = false
                    /\ (kv.1 = "hasEquity" -> truthy kv.2 = false)) filters ->
  Job.findAll_statement (Filters filters)
  = {| sql := Job.select_from +:+ "WHERE " +:+ Job.order_by; args := Some [] |}.
Proof.
  intros Hne Hnd Hall. unfold Job.findAll_statement, Job.query.
  rewrite (job_build_nonempty _ Hne), (job_where_loop_pieces _ Hnd).
  destruct (job_pieces_none _ Hall) as [-> ->]. reflexivity.
Qed.

Lemma X10_jobs_bare_where_witness :
  Job.findAll_statement (Filters [("hasEquity", VBool false)])
  = {| sql := Job.select_from +:+ "WHERE " +:+ Job.order_by; args := Some [] |}.
Proof.
  apply (X10_jobs_bare_where [("hasEquity", VBool false)]).
  - discriminate.
  - compute_done.
  - by repeat constructor.
Defined.

(** ** Values stay out of the statement texts *)

Section TextFromKeys.

Import Placeholder.
Implicit Types (filters : obj).

Lemma company_build_nonempty filters :
  filters <> [] ->
  Company.build (Filters filters)
  = {| Company.sqlWhereCondStr :=
         "WHERE " +:+ join " AND " (Company.sqlWhereCondArr (Object_keys filters));
       Company.sqlNumEmployeesSelectArg :=
         if includes (Object_keys filters) "minEmployees"
            || includes (Object_keys filters) "maxEmployees"
         then "num_employees AS " +:+ dq +:+ "numEmployees" +:+ dq +:+ ","
         else EmptyString;
       Company.filterVals := Some (Object_values filters) |}.
Proof. by destruct filters. Qed.

Lemma company_select_scan (arg : string) t :
  arg = EmptyString \/ arg = "num_employees AS " +:+ dq +:+ "numEmployees" +:+ dq +:+ "," ->
  scan Plain (Company.select_from arg +:+ t) = scan Plain t.
Proof. by intros [->| ->]. Qed.

Lemma same_shape_keys (f1 f2 : obj) : same_shape f1 f2 -> Object_keys f1 = Object_keys f2.
Proof.
  induction 1 as [|kv1 kv2 f1 f2 [Hkey _] _ IH]; [done|].
  unfold Object_keys in *. rewrite !fmap_cons. by f_equal.
Qed.

Lemma same_shape_pieces (f1 f2 : obj) :
  same_shape f1 f2 ->
  forall start,
    imap (fun j => job_pieces (start + j)) f1 = imap (fun j => job_pieces (start + j)) f2.
Proof.
  induction 1 as [|[k1 v1] [k2 v2] f1 f2 [Hkey Htruthy] _ IH]; intros start; [done|].
  simpl in Hkey, Htruthy. subst k2. cbn [imap]. f_equal.
  - unfold job_pieces. simpl.
    destruct (String.eqb k1 "titleLike"); [done|].
    destruct (String.eqb k1 "minSalary"); [done|].
    destruct (String.eqb_spec k1 "hasEquity") as [Heq|]; [|done]. by rewrite (Htruthy Heq).
  - rewrite (imap_ext _ (fun j => job_pieces (S start + j)) f1)
      by (intros; simpl; f_equal; lia).
    rewrite (imap_ext _ (fun j => job_pieces (S start + j)) f2)
      by (intros; simpl; f_equal; lia).
    apply IH.
Qed.

Lemma company_text_from_keys (f1 f2 : obj) :
  Object_keys f1 = Object_keys f2 ->
  sql (Company.findAll_statement (Filters f1)) = sql (Company.findAll_statement (Filters f2)).
Proof.
  intros Hkeys. destruct f1 as [|kv1 f1], f2 as [|kv2 f2]; try done.
  unfold Company.findAll_statement.
  rewrite !company_build_nonempty by done. by rewrite Hkeys.
Qed.

Lemma job_text_from_shape (f1 f2 : obj) :
  NoDup (Object_keys f1) -> same_shape f1 f2 ->
  sql (Job.findAll_statement (Filters f1)) = sql (Job.findAll_statement (Filters f2)).
Proof.
  intros Hnd Hshape. pose proof (same_shape_keys _ _ Hshape) as Hkeys.
  assert (NoDup (Object_keys f2)) as Hnd2 by (by rewrite <- Hkeys).
  destruct f1 as [|kv1 f1], f2 as [|kv2 f2]; try done.
  unfold Job.findAll_statement.
  rewrite !job_build_nonempty by done.
  rewrite !job_where_loop_pieces by done.
  assert (imap job_pieces (kv1 :: f1) = imap job_pieces (kv2 :: f2)) as Hpieces
    by exact (same_shape_pieces _ _ Hshape 0).
  unfold Job.query. cbn [Job.sqlWhereCondArr Job.sqlWhereCondStr sql]. by rewrite Hpieces.
Qed.

End TextFromKeys.

(** X11. The SET fragment of the partial-update builder is made from the
    names of the update alone: two updates with the same names, in the same
    order, get the same fragment (or both are refused), whatever their values;
    the values are returned as the parameter list, untouched and in order. *)
Theorem X11_update_fragment_from_names (d1 d2 : obj) (jsToSql : gmap string value) :
  Object_keys d1 = Object_keys d2 ->
  match Sql.sqlForPartialUpdate d1 jsToSql, Sql.sqlForPartialUpdate d2 jsToSql with
  | Ok p1, Ok p2 =>
      Sql.setCols p1 = Sql.setCols p2
      /\ Sql.values p1 = Object_values d1 /\ Sql.values p2 = Object_values d2
  | Throw e1, Throw e2 => e1 = e2
  | _, _ => False
  end.
Proof.
  intros Hkeys. unfold Sql.sqlForPartialUpdate, Sql.cols. rewrite Hkeys.
  by destruct (length (Object_keys d2) =? 0)%nat.
Qed.

Lemma X11_update_fragment_from_names_witness :
  match Sql.sqlForPartialUpdate [("name", VStr "a"); ("logoUrl", VNull)] Company.jsToSql,
        Sql.sqlForPartialUpdate [("name", VStr "x'; --"); ("logoUrl", VStr "u")] Company.jsToSql
  with
  | Ok p1, Ok p2 =>
      Sql.setCols p1 = Sql.setCols p2
      /\ Sql.values p1 = Object_values [("name", VStr "a"); ("logoUrl", VNull)]
      /\ Sql.values p2 = Object_values [("name", VStr "x'; --"); ("logoUrl", VStr "u")]
  | Throw e1, Throw e2 => e1 = e2
  | _, _ => False
  end.
Proof.
  apply (X11_update_fragment_from_names [("name", VStr "a"); ("logoUrl", VNull)]
           [("name", VStr "x'; --"); ("logoUrl", VStr "u")] Company.jsToSql).
  reflexivity.
Defined.

(** X12. When no resolved column name holds a double quote, the SET fragment
    of a successful build holds the placeholders [$1 .. $n] in order, [n] the
    number of parameters returned with it. *)
Theorem X12_update_fragment_placeholders (dataToUpdate : obj) (jsToSql : gmap string value)
    (p : Sql.partial_update) :
  Sql.sqlForPartialUpdate dataToUpdate jsToSql = Ok p ->
  Forall (fun name => Placeholder.no_dquote (resolved_column jsToSql name) = true)
    (Object_keys dataToUpdate) ->
  Placeholder.placeholders (Sql.setCols p) = seq 1 (length (Sql.values p))
  /\ length (Sql.values p) = length dataToUpdate.
Proof.
  intros Hp Hall. split; [by apply (update_fragment_aligned dataToUpdate jsToSql)|].
  apply sqlForPartialUpdate_Ok in Hp as [_ ->]. simpl.
  unfold Object_values. by rewrite length_fmap.
Qed.

Lemma X12_update_fragment_placeholders_witness :
  Placeholder.placeholders
    (Sql.setCols {| Sql.setCols := join ", " (Sql.cols [("firstName", VStr "A"); ("email", VStr "b")]
                                                User.jsToSql);
                    Sql.values := [VStr "A"; VStr "b"] |})
  = seq 1 (length (Sql.values
                     {| Sql.setCols := join ", " (Sql.cols [("firstName", VStr "A");
                                                            ("email", VStr "b")] User.jsToSql);
                        Sql.values := [VStr "A"; VStr "b"] |}))
  /\ length (Sql.values
               {| Sql.setCols := join ", " (Sql.cols [("firstName", VStr "A"); ("email", VStr "b")]
                                              User.jsToSql);
                  Sql.values := [VStr "A"; VStr "b"] |})
     = length [("firstName", VStr "A"); ("email", VStr "b")].
Proof.
  apply (X12_update_fragment_placeholders [("firstName", VStr "A"); ("email", VStr "b")]
           User.jsToSql).
  - reflexivity.
  - repeat constructor.
Defined.

(** X13. On a filter input whose keys are all recognized, the companies list
    statement holds the placeholders [$1 .. $n] in order, [n] the number of
    parameters handed over with it (none when there is no filter). *)
Theorem X13_companies_statement_placeholders (f : filtersObj) :
  Forall (fun key => key ∈ company_filters) (Object_keys (filter_spec f)) ->
  Placeholder.placeholders (sql (Company.findAll_statement f))
  = seq 1 (length (default [] (args (Company.findAll_statement f)))).
Proof.
  intros Hall. destruct f as [|filters]; [reflexivity|]. simpl filter_spec in Hall.
  destruct (decide (filters = [])) as [->|Hne]; [reflexivity|].
  unfold Company.findAll_statement. rewrite (company_build_nonempty _ Hne).
  unfold Company.query, Placeholder.placeholders.
  cbn [sql args Company.sqlWhereCondStr Company.sqlNumEmployeesSelectArg Company.filterVals].
  change (default [] (Some ?x)) with x.
  rewrite company_select_scan by (destruct (_ || _); auto).
  rewrite string_app_assoc, (scan_inert "WHERE ") by reflexivity.
  rewrite company_sqlWhereCondArr_known by done.
  change (fun idx key => company_shape key +:+ pretty (idx + 1))
    with (fun idx key => company_shape key +:+ pretty (0 + idx + 1)).
  rewrite (scan_join company_shape " AND " Company.order_by (Object_keys filters)
             (fun k n t' Hk Hn => company_shape_scan k n t' (proj1 (Forall_forall _ _) Hall k Hk) Hn)
             ltac:(done) eq_refl eq_refl eq_refl) with (start := 0%nat).
  - change (Placeholder.scan Placeholder.Plain Company.order_by) with (@nil nat).
    unfold Object_keys, Object_values. by rewrite app_nil_r, !length_fmap.
  - unfold Object_keys. by destruct filters.
Qed.

Lemma X13_companies_statement_placeholders_witness :
  Placeholder.placeholders
    (sql (Company.findAll_statement
            (Filters [("maxEmployees", VNum 9); ("nameLike", VStr "%net%")])))
  = seq 1 (length (default []
                     (args (Company.findAll_statement
                              (Filters [("maxEmployees", VNum 9); ("nameLike", VStr "%net%")]))))).
Proof.
  apply (X13_companies_statement_placeholders
           (Filters [("maxEmployees", VNum 9); ("nameLike", VStr "%net%")])).
  repeat constructor; unfold company_filters; set_solver.
Defined.

(** X14. No filter value reaches the text of a list statement.  Two filter
    specs with the same keys in the same order give the same companies
    statement text; they give the same jobs statement text when, besides, the
    values under [hasEquity] are both truthy or both falsy.  (The keys of the
    first spec are distinct.) *)
Theorem X14_list_text_from_keys (f1 f2 : obj) :
  NoDup (Object_keys f1) ->
  same_shape f1 f2 ->
  sql (Company.findAll_statement (Filters f1)) = sql (Company.findAll_statement (Filters f2))
  /\ sql (Job.findAll_statement (Filters f1)) = sql (Job.findAll_statement (Filters f2)).
Proof.
  intros Hnd Hshape. split.
  - by apply company_text_from_keys, same_shape_keys.
  - by apply job_text_from_shape.
Qed.

Lemma X14_list_text_from_keys_witness :
  sql (Company.findAll_statement (Filters [("nameLike", VStr "%a%"); ("hasEquity", VBool true)]))
  = sql (Company.findAll_statement (Filters [("nameLike", VStr "%'; --%"); ("hasEquity", VNum 1)]))
  /\ sql (Job.findAll_statement (Filters [("nameLike", VStr "%a%"); ("hasEquity", VBool true)]))
     = sql (Job.findAll_statement (Filters [("nameLike", VStr "%'; --%"); ("hasEquity", VNum 1)])).
Proof.
  apply (X14_list_text_from_keys [("nameLike", VStr "%a%"); ("hasEquity", VBool true)]
           [("nameLike", VStr "%'; --%"); ("hasEquity", VNum 1)]).
  - compute_done.
  - repeat constructor.
Defined.

(** ** The list routes *)

Section ListRoutes.

Implicit Types (filters : obj).

(** On an object of distinct keys the wrapping is entry by entry. *)
Lemma wrap_like_entries key filters :
  NoDup (Object_keys filters) ->
  Routes.wrap_like key filters = Routes.wrapped_entry key <$> filters.
Proof.
  unfold Routes.wrap_like. induction filters as [|[k w] rest IH]; intros Hnd; [done|].
  apply NoDup_cons in Hnd as [Hk Hnd]. specialize (IH Hnd).
  assert (forall key', key' ∉ Object_keys rest ->
            Routes.wrapped_entry key' <$> rest = rest) as Hsame.
  { intros key' Hnot. clear IH Hnd Hk. induction rest as [|[k' w'] rest IH]; [done|].
    apply not_elem_of_cons in Hnot as [Hne Hrest]. rewrite fmap_cons, (IH Hrest).
    unfold Routes.wrapped_entry. simpl. by rewrite (string_eqb_ne k' key'). }
  rewrite fmap_cons. unfold Routes.wrapped_entry at 1. simpl.
  destruct (String.eqb_spec k key) as [->|Hne]; simpl.
  - rewrite (Hsame key Hk). by destruct (truthy w).
  - destruct (truthy (get rest key)); by rewrite <- IH.
Qed.

Lemma wrapped_entry_key key kv : (Routes.wrapped_entry key kv).1 = kv.1.
Proof. unfold Routes.wrapped_entry. by destruct (_ && _). Qed.

Lemma wrapped_keys key filters :
  Object_keys (Routes.wrapped_entry key <$> filters) = Object_keys filters.
Proof.
  unfold Object_keys. rewrite <- list_fmap_compose. apply list_fmap_ext.
  intros i kv _. apply wrapped_entry_key.
Qed.

Lemma wrapped_same_shape filters :
  same_shape filters (Routes.wrapped_entry "titleLike" <$> filters).
Proof.
  unfold same_shape. apply Forall2_fmap_r, Forall_Forall2_diag, Forall_forall.
  intros kv _. unfold compose. rewrite wrapped_entry_key. split; [done|].
  intros Hk. unfold Routes.wrapped_entry. rewrite Hk. reflexivity.
Qed.

Lemma filter_wrapped key (P : string -> bool) filters :
  filter (fun kv : string * value => P kv.1 = true) (Routes.wrapped_entry key <$> filters)
  = Routes.wrapped_entry key <$> filter (fun kv : string * value => P kv.1 = true) filters.
Proof.
  induction filters as [|kv rest IH]; [done|].
  rewrite fmap_cons, !filter_cons. cbv beta. rewrite wrapped_entry_key, IH.
  by destruct (decide (P kv.1 = true)).
Qed.

End ListRoutes.

(** X15. The companies route compares the two employee bounds only when both
    are non-negative numbers.  Then it refuses the body whenever the maximum
    is not above the minimum, equal bounds included; with a negative bound it
    hands the body on to the model, bounds untouched, even when the maximum is
    below the minimum. *)
Theorem X15_company_range_rule (validate : filtersObj -> option string) (db : database)
    (filters : obj) (a b : Z) :
  validate (Filters filters) = None ->
  get filters "minEmployees" = VNum a ->
  get filters "maxEmployees" = VNum b ->
  ((0 <= a)%Z -> (0 <= b)%Z -> (b <= a)%Z ->
   Routes.company_get validate db (Filters filters)
   = Throw (BadRequestError "Max employees must be greater than the min employees"))
  /\ ((a < 0)%Z \/ (b < 0)%Z \/ (a < b)%Z ->
      Routes.company_get validate db (Filters filters)
      = Ok (Company.findAll db (Filters (Routes.wrap_like "nameLike" filters)))
      /\ get (Routes.wrap_like "nameLike" filters) "minEmployees" = VNum a
      /\ get (Routes.wrap_like "nameLike" filters) "maxEmployees" = VNum b).
Proof.
  intros Hvalid Hmin Hmax. unfold Routes.company_get, Routes.company_prepare.
  rewrite Hvalid, Hmin, Hmax. unfold Routes.ge, Routes.le. simpl.
  assert (forall key, key <> "nameLike" ->
            get (Routes.wrap_like "nameLike" filters) key = get filters key) as Hother.
  { intros key Hne. unfold Routes.wrap_like.
    destruct (truthy (get filters "nameLike")); [|done].
    generalize (VStr ("%" +:+ to_string (get filters "nameLike") +:+ "%")). intros v.
    clear Hvalid Hmin Hmax.
    induction filters as [|[k w] rest IH]; cbn [get Js.set].
    - by rewrite (string_eqb_ne "nameLike" key).
    - destruct (String.eqb_spec k "nameLike") as [->|Hk]; cbn [get].
      + by rewrite (string_eqb_ne "nameLike" key).
      + destruct (String.eqb k key); [done|]. apply IH. }
  split.
  - intros Ha Hb Hab.
    by rewrite (proj2 (Z.leb_le 0 a) Ha), (proj2 (Z.leb_le 0 b) Hb), (proj2 (Z.leb_le b a) Hab).
  - intros Hcase.
    assert ((0 <=? a)%Z && (0 <=? b)%Z && (b <=? a)%Z = false) as ->.
    { apply andb_false_iff. destruct Hcase as [Ha|[Hb|Hab]].
      - left. apply andb_false_iff. left. by apply Z.leb_gt.
      - left. apply andb_false_iff. right. by apply Z.leb_gt.
      - right. by apply Z.leb_gt. }
    split; [done|]. rewrite !Hother by done. by rewrite Hmin, Hmax.
Qed.

Lemma X15_company_range_rule_witness :
  ((0 <= 3)%Z -> (0 <= 3)%Z -> (3 <= 3)%Z ->
   Routes.company_get (fun _ => None) (fun _ _ => [])
     (Filters [("minEmployees", VNum 3); ("maxEmployees", VNum 3)])
   = Throw (BadRequestError "Max employees must be greater than the min employees"))
  /\ ((3 < 0)%Z \/ (3 < 0)%Z \/ (3 < 3)%Z ->
      Routes.company_get (fun _ => None) (fun _ _ => [])
        (Filters [("minEmployees", VNum 3); ("maxEmployees", VNum 3)])
      = Ok (Company.findAll (fun _ _ => [])
              (Filters (Routes.wrap_like "nameLike"
                          [("minEmployees", VNum 3); ("maxEmployees", VNum 3)])))
      /\ get (Routes.wrap_like "nameLike" [("minEmployees", VNum 3); ("maxEmployees", VNum 3)])
           "minEmployees" = VNum 3
      /\ get (Routes.wrap_like "nameLike" [("minEmployees", VNum 3); ("maxEmployees", VNum 3)])
           "maxEmployees" = VNum 3).
Proof.
  apply (X15_company_range_rule (fun _ => None) (fun _ _ => [])
           [("minEmployees", VNum 3); ("maxEmployees", VNum 3)] 3 3); reflexivity.
Defined.

(** X16. When the companies route hands a body of distinct keys on to the
    model, the statement that runs has the text built from the body as it
    came, and as parameters the values of the body in order, except that a
    truthy [nameLike] value goes between percent signs (an empty one stays
    empty). *)
Theorem X16_company_nameLike_parameter (validate : filtersObj -> option string)
    (db : database) (filters : obj) :
  validate (Filters filters) = None ->
  NoDup (Object_keys filters) ->
  filters <> [] ->
  Routes.company_get validate db (Filters filters)
  = match Routes.company_prepare (Filters filters) with
    | Throw e => Throw e
    | Ok _ =>
        Ok (db (sql (Company.findAll_statement (Filters filters)))
              (Some (snd <$> (Routes.wrapped_entry "nameLike" <$> filters))))
    end.
Proof.
  intros Hvalid Hnd Hne. unfold Routes.company_get. rewrite Hvalid.
  unfold Routes.company_prepare.
  destruct (_ && _); [done|]. f_equal.
  rewrite (wrap_like_entries _ _ Hnd). unfold Company.findAll. f_equal.
  - apply company_text_from_keys, wrapped_keys.
  - unfold Company.findAll_statement.
    rewrite company_build_nonempty; [done|]. by destruct filters.
Qed.

Lemma X16_company_nameLike_parameter_witness :
  Routes.company_get (fun _ => None) (fun _ params => [[("params", at_index (default [] params) 0)]])
    (Filters [("nameLike", VStr "net")])
  = match Routes.company_prepare (Filters [("nameLike", VStr "net")]) with
    | Throw e => Throw e
    | Ok _ =>
        Ok ((fun _ params => [[("params", at_index (default [] params) 0)]])
              (sql (Company.findAll_statement (Filters [("nameLike", VStr "net")])))
              (Some (snd <$> (Routes.wrapped_entry "nameLike" <$> [("nameLike", VStr "net")]))))
    end.
Proof.
  apply (X16_company_nameLike_parameter (fun _ => None)
           (fun _ params => [[("params", at_index (default [] params) 0)]])
           [("nameLike", VStr "net")]).
  - reflexivity.
  - compute_done.
  - discriminate.
Defined.

(** X17. The jobs route hands every body that passed the schema on to the
    model.  For a body of distinct keys the statement that runs has the text
    built from the body as it came, and as parameters the values of the
    [titleLike] and [minSalary] entries in order, a truthy [titleLike] value
    between percent signs. *)
Theorem X17_job_titleLike_parameter (validate : filtersObj -> option string)
    (db : database) (filters : obj) :
  validate (Filters filters) = None ->
  NoDup (Object_keys filters) ->
  Routes.job_get validate db (Filters filters)
  = Ok (db (sql (Job.findAll_statement (Filters filters)))
          (Some (snd <$> (Routes.wrapped_entry "titleLike"
                          <$> filter (fun kv => parametric kv.1 = true) filters)))).
Proof.
  intros Hvalid Hnd. unfold Routes.job_get. rewrite Hvalid. f_equal.
  unfold Routes.job_prepare. rewrite (wrap_like_entries _ _ Hnd).
  assert (NoDup (Object_keys (Routes.wrapped_entry "titleLike" <$> filters))) as Hnd'
    by (by rewrite wrapped_keys).
  destruct (job_statement_scan (Filters (Routes.wrapped_entry "titleLike" <$> filters)) Hnd')
    as [_ Hvalues].
  unfold Job.findAll. f_equal.
  - symmetry. apply job_text_from_shape; [done|apply wrapped_same_shape].
  - change (args (Job.findAll_statement ?f)) with (Some (Job.query_values (Job.build f))).
    rewrite Hvalues. simpl filter_spec. by rewrite (filter_wrapped "titleLike" parametric).
Qed.

Lemma X17_job_titleLike_parameter_witness :
  Routes.job_get (fun _ => None) (fun _ params => [[("params", at_index (default [] params) 0)]])
    (Filters [("hasEquity", VBool true); ("titleLike", VStr "dev")])
  = Ok ((fun _ params => [[("params", at_index (default [] params) 0)]])
          (sql (Job.findAll_statement (Filters [("hasEquity", VBool true); ("titleLike", VStr "dev")])))
          (Some (snd <$> (Routes.wrapped_entry "titleLike"
                          <$> filter (fun kv => parametric kv.1 = true)
                                [("hasEquity", VBool true); ("titleLike", VStr "dev")])))).
Proof.
  apply (X17_job_titleLike_parameter (fun _ => None)
           (fun _ params => [[("params", at_index (default [] params) 0)]])
           [("hasEquity", VBool true); ("titleLike", VStr "dev")]).
  - reflexivity.
  - compute_done.
Defined.
